(** * queuectl: the job store, the lifecycle manager and their contracts

    A shallow embedding of [src/utils.py], [src/config.py], [src/storage.py]
    and [src/job_manager.py], followed by the properties of the dispatch
    and lifecycle subsystem.

    Conventions of the embedding.
    - The SQLite table [jobs] is the list of its rows in rowid (insertion)
      order; [id] is its primary key.
    - SQL [NULL] and Python [None] are [None]; a key missing from the
      submitted JSON object is [None] as well.
    - Every read of the wall clock ([datetime.utcnow()]) is an argument of
      the function that reads it: a naive UTC datetime, counted in
      microseconds since 0001-01-01T00:00:00.
    - Store faults (I/O errors, a locked database) are outside the model:
      calls are sequential and the store is fault free. *)

From Stdlib Require Import ZArith QArith Qround List String Ascii Bool Lia.
From Stdlib Require Import Permutation Sorted Orders Mergesort Qpower.
Import ListNotations.

Local Open Scope Z_scope.

(* ================================================================== *)
(** ** [src/utils.py] and the parts of Python's [datetime] it relies on *)
(* ================================================================== *)

Module Utils.

(** A naive datetime: microseconds since 0001-01-01T00:00:00.  Python
    represents the years 1 to 9999. *)
Definition datetime := Z.

Definition US_PER_SECOND : Z := 1000000.
Definition US_PER_DAY : Z := 86400 * US_PER_SECOND.

(** [date.max.toordinal()]: the ordinal of 9999-12-31. *)
Definition MAXORDINAL : Z := 3652059.

(** [datetime.max] is 9999-12-31T23:59:59.999999. *)
Definition datetime_max : datetime := MAXORDINAL * US_PER_DAY - 1.

Definition DAYS_IN_MONTH (month : Z) : Z :=
  match month with
  | 1 => 31 | 2 => 28 | 3 => 31 | 4 => 30 | 5 => 31 | 6 => 30
  | 7 => 31 | 8 => 31 | 9 => 30 | 10 => 31 | 11 => 30 | _ => 31
  end.

Definition DAYS_BEFORE_MONTH (month : Z) : Z :=
  match month with
  | 1 => 0 | 2 => 31 | 3 => 59 | 4 => 90 | 5 => 120 | 6 => 151
  | 7 => 181 | 8 => 212 | 9 => 243 | 10 => 273 | 11 => 304 | _ => 334
  end.

(** [datetime._ord2ymd]: the proleptic Gregorian ordinal (1 is
    0001-01-01) as year, month and day. *)
Definition ord2ymd (ordinal : Z) : Z * Z * Z :=
  let n := ordinal - 1 in
  let n400 := n / 146097 in
  let n := n mod 146097 in
  let n100 := n / 36524 in
  let n := n mod 36524 in
  let n4 := n / 1461 in
  let n := n mod 1461 in
  let n1 := n / 365 in
  let n := n mod 365 in
  let year := n400 * 400 + 1 + n100 * 100 + n4 * 4 + n1 in
  if (n1 =? 4) || (n100 =? 4) then (year - 1, 12, 31)
  else
    let leapyear := (n1 =? 3) && (negb (n4 =? 24) || (n100 =? 3)) in
    let month := Z.shiftr (n + 50) 5 in
    let preceding :=
      DAYS_BEFORE_MONTH month + (if (2 <? month) && leapyear then 1 else 0) in
    if n <? preceding then
      let month := month - 1 in
      let preceding :=
        preceding
        - (DAYS_IN_MONTH month + (if (month =? 2) && leapyear then 1 else 0)) in
      (year, month, n - preceding + 1)
    else (year, month, n - preceding + 1).

Definition digit (n : Z) : ascii :=
  ascii_of_N (48 + Z.to_N (n mod 10)).

(** ["%0<width>d" % n] for a number of at most [width] digits, as every
    field of a datetime in range is. *)
Fixpoint zero_padded (width : nat) (n : Z) : string :=
  match width with
  | O => EmptyString
  | S w => (zero_padded w (n / 10) ++ String (digit n) EmptyString)%string
  end.

(** [datetime.isoformat()]: [YYYY-MM-DDTHH:MM:SS], followed by [.ffffff]
    when the microsecond is not zero. *)
Definition isoformat (dt : datetime) : string :=
  let '(year, month, day) := ord2ymd (dt / US_PER_DAY + 1) in
  let rest := dt mod US_PER_DAY in
  let hour := rest / (3600 * US_PER_SECOND) in
  let minute := (rest / (60 * US_PER_SECOND)) mod 60 in
  let second := (rest / US_PER_SECOND) mod 60 in
  let microsecond := rest mod US_PER_SECOND in
  (zero_padded 4 year ++ "-" ++ zero_padded 2 month ++ "-"
   ++ zero_padded 2 day ++ "T" ++ zero_padded 2 hour ++ ":"
   ++ zero_padded 2 minute ++ ":" ++ zero_padded 2 second
   ++ (if Z.eqb microsecond 0 then "" else "." ++ zero_padded 6 microsecond))%string.

(** Rounding to the nearest integer, ties to even ([round] in Python). *)
Definition round_half_even (q : Q) : Z :=
  let n := Qnum q in
  let d := Z.pos (Qden q) in
  let f := n / d in
  let r := 2 * (n mod d) in
  if r <? d then f
  else if d <? r then f + 1
  else if Z.even f then f else f + 1.

(** [timedelta(seconds=delay)], in microseconds.  Python raises
    [OverflowError] ([None] here) when the number of days exceeds
    999999999 in magnitude.  Python computes in binary floating point;
    the model computes in exact rationals and agrees with it wherever
    the floating-point operations are exact (every power of the default
    base 2.0, every integer base). *)
Definition timedelta (seconds : Q) : option Z :=
  let us := round_half_even (seconds * inject_Z US_PER_SECOND) in
  let days := us / US_PER_DAY in
  if (-999999999 <=? days) && (days <=? 999999999) then Some us else None.

(** [dt + td]: Python raises [OverflowError] ("date value out of range")
    when the sum leaves the years 1 to 9999. *)
Definition datetime_add (dt : datetime) (td : Z) : option datetime :=
  let r := dt + td in
  if (0 <=? r) && (r <=? datetime_max) then Some r else None.

(** [get_timestamp()], given the clock's reading. *)
Definition get_timestamp (utcnow : datetime) : string := isoformat utcnow.

(** [calculate_backoff_delay(attempts, base)] is [base ** attempts]. *)
Definition calculate_backoff_delay (attempts : Z) (base : Q) : Q :=
  Qpower base attempts.

(** The datetime of a civil date and time, for writing examples. *)
Definition days_before_year (year : Z) : Z :=
  let y := year - 1 in y * 365 + y / 4 - y / 100 + y / 400.

Definition is_leap (year : Z) : bool :=
  (year mod 4 =? 0) && (negb (year mod 100 =? 0) || (year mod 400 =? 0)).

Definition mkdatetime (year month day hour minute second : Z) : datetime :=
  (days_before_year year + DAYS_BEFORE_MONTH month
   + (if (2 <? month) && is_leap year then 1 else 0) + day - 1) * US_PER_DAY
  + ((hour * 60 + minute) * 60 + second) * US_PER_SECOND.

End Utils.
Import Utils.

(* ================================================================== *)
(** ** [src/config.py] *)
(* ================================================================== *)

Module Config.

(** The configuration values the lifecycle manager reads with
    [config.get]; [worker_poll_interval] and [data_dir] play no part
    below.  [backoff_base] is a number: the float 2.0 by default, an
    integer or a float after [config set]. *)
Record t := {
  max_retries : Z;
  backoff_base : Q
}.

Definition DEFAULT_CONFIG : t :=
  {| max_retries := 3; backoff_base := 2 # 1 |}.

End Config.

(** The configuration as the dict [Config] keeps in [_config], and the
    file it is loaded from and saved to. *)
Module ConfigFile.

(** A JSON value. *)
#[warnings="-register-all"]
Inductive value :=
| Null
| Bool (b : bool)
| Int (z : Z)
| Float (q : Q)
| Str (s : string)
| Array (items : list value)
| Object (members : list (string * value)).

(** A dict with string keys, in insertion order. *)
Definition dict := list (string * value).

Fixpoint lookup (key : string) (d : dict) : option value :=
  match d with
  | [] => None
  | (k, v) :: d => if String.eqb k key then Some v else lookup key d
  end.

(** [d[key] = v]: in place when the key is there, at the end when not. *)
Fixpoint set_item (key : string) (v : value) (d : dict) : dict :=
  match d with
  | [] => [(key, v)]
  | (k, x) :: d =>
      if String.eqb k key then (k, v) :: d else (k, x) :: set_item key v d
  end.

(** [{**a, **b}]. *)
Definition merge (a b : dict) : dict :=
  fold_left (fun d kv => set_item (fst kv) (snd kv) d) b a.

Definition DEFAULT_CONFIG : dict :=
  [("max_retries", Int 3); ("backoff_base", Float (2 # 1));
   ("worker_poll_interval", Float (1 # 1));
   ("data_dir", Str ".queuectl")]%string.

(** What [_load_config] finds at [config_path]: no file, a file that
    cannot be opened or is not JSON, or a JSON value. *)
Inductive file :=
| Missing
| Unreadable
| Json (v : value).

(** [_load_config()]: anything but a JSON object ends in the defaults
    (unpacking a value that is no mapping raises, and the exception is
    caught). *)
Definition load_config (f : file) : dict :=
  match f with
  | Json (Object config) => merge DEFAULT_CONFIG config
  | _ => DEFAULT_CONFIG
  end.

(** [get(key, default)]. *)
Definition get (config : dict) (key : string) (default : value) : value :=
  match lookup key config with
  | Some v => v
  | None => default
  end.

(** [set(key, value)] with a value JSON can write and a file that can be
    written: the dict and the file afterwards.  [json.dump] writes the
    dict as a JSON object and [json.load] reads that object back. *)
Definition set (config : dict) (key : string) (v : value) : dict * file :=
  let config := set_item key v config in
  (config, Json (Object config)).

End ConfigFile.

(* ================================================================== *)
(** ** [src/storage.py] *)
(* ================================================================== *)

Module Storage.

(** A row of the table [jobs].  [state] is the TEXT the code stores;
    the three nullable TEXT columns are options. *)
Record Job := {
  id : string;
  command : string;
  state : string;
  attempts : Z;
  max_retries : Z;
  created_at : string;
  updated_at : string;
  scheduled_at : option string;
  error_message : option string;
  lock_id : option string
}.

(** The table, in rowid order. *)
Definition table := list Job.

(** One [key = ?] of an UPDATE's SET clause with the value bound to it:
    the keys the callers of [update_job] pass, and [updated_at]. *)
Inductive assignment :=
| Set_state (v : string)
| Set_attempts (v : Z)
| Set_updated_at (v : string)
| Set_scheduled_at (v : option string)
| Set_error_message (v : option string)
| Set_lock_id (v : option string).

Definition assign (r : Job) (a : assignment) : Job :=
  match a with
  | Set_state v =>
      {| id := id r; command := command r; state := v;
         attempts := attempts r; max_retries := max_retries r;
         created_at := created_at r; updated_at := updated_at r;
         scheduled_at := scheduled_at r; error_message := error_message r;
         lock_id := lock_id r |}
  | Set_attempts v =>
      {| id := id r; command := command r; state := state r;
         attempts := v; max_retries := max_retries r;
         created_at := created_at r; updated_at := updated_at r;
         scheduled_at := scheduled_at r; error_message := error_message r;
         lock_id := lock_id r |}
  | Set_updated_at v =>
      {| id := id r; command := command r; state := state r;
         attempts := attempts r; max_retries := max_retries r;
         created_at := created_at r; updated_at := v;
         scheduled_at := scheduled_at r; error_message := error_message r;
         lock_id := lock_id r |}
  | Set_scheduled_at v =>
      {| id := id r; command := command r; state := state r;
         attempts := attempts r; max_retries := max_retries r;
         created_at := created_at r; updated_at := updated_at r;
         scheduled_at := v; error_message := error_message r;
         lock_id := lock_id r |}
  | Set_error_message v =>
      {| id := id r; command := command r; state := state r;
         attempts := attempts r; max_retries := max_retries r;
         created_at := created_at r; updated_at := updated_at r;
         scheduled_at := scheduled_at r; error_message := v;
         lock_id := lock_id r |}
  | Set_lock_id v =>
      {| id := id r; command := command r; state := state r;
         attempts := attempts r; max_retries := max_retries r;
         created_at := created_at r; updated_at := updated_at r;
         scheduled_at := scheduled_at r; error_message := error_message r;
         lock_id := v |}
  end.

(** [UPDATE jobs SET ... WHERE cond]: the rows after the statement. *)
Definition sql_update (cond : Job -> bool) (set : list assignment)
    (t : table) : table :=
  map (fun r => if cond r then fold_left assign set r else r) t.

(** [cursor.rowcount] after that UPDATE: the rows [cond] selected. *)
Definition rowcount (cond : Job -> bool) (t : table) : Z :=
  Z.of_nat (List.length (filter cond t)).

(** [ORDER BY created_at]: TEXT compares bytewise, as [String.leb]
    does; rows with equal keys stay in rowid order. *)
Module CreatedAtOrder <: TotalLeBool.
Definition t := Job.
Definition leb (x y : Job) : bool :=
  String.leb (created_at x) (created_at y).
Theorem leb_total : forall x y, leb x y = true \/ leb y x = true.
Proof. intros x y. apply String.leb_total. Qed.
End CreatedAtOrder.

Module OrderBy := Sort CreatedAtOrder.

(** [LIMIT n]: SQLite puts no bound on the rows when [n] is negative. *)
Definition sql_limit (n : Z) (rows : list Job) : list Job :=
  if n <? 0 then rows else firstn (Z.to_nat n) rows.

(** [create_job]: the INSERT; SQLite refuses a second row with the same
    primary key and the call raises [sqlite3.IntegrityError] ([None]). *)
Definition create_job (job : Job) (t : table) : option table :=
  if existsb (fun r => String.eqb (id r) (id job)) t then None
  else Some (t ++ [job]).

(** [get_job]: [SELECT * FROM jobs WHERE id = ?], first row or [None]. *)
Definition get_job (job_id : string) (t : table) : option Job :=
  find (fun r => String.eqb (id r) job_id) t.

(** [update_job]: the given assignments and then [updated_at], on the
    rows with this id. *)
Definition update_job (job_id : string) (updates : list assignment)
    (now : datetime) (t : table) : table :=
  let updates := updates ++ [Set_updated_at (get_timestamp now)] in
  sql_update (fun r => String.eqb (id r) job_id) updates t.

(** The WHERE clause of [acquire_job_lock]:
    [id = ? AND (lock_id IS NULL OR lock_id = '') AND state = 'pending']. *)
Definition claimable (job_id : string) (r : Job) : bool :=
  String.eqb (id r) job_id
  && match lock_id r with
     | None => true
     | Some l => String.eqb l ""
     end
  && String.eqb (state r) "pending".

(** [acquire_job_lock]: the result and the table afterwards. *)
Definition acquire_job_lock (job_id lock : string) (now : datetime)
    (t : table) : bool * table :=
  (0 <? rowcount (claimable job_id) t,
   sql_update (claimable job_id)
     [Set_lock_id (Some lock); Set_state "processing";
      Set_updated_at (get_timestamp now)] t).

(** [release_job_lock]: [WHERE id = ? AND lock_id = ?]; a NULL
    [lock_id] equals nothing. *)
Definition release_job_lock (job_id lock : string) (now : datetime)
    (t : table) : table :=
  sql_update
    (fun r => String.eqb (id r) job_id
              && match lock_id r with
                 | None => false
                 | Some l => String.eqb l lock
                 end)
    [Set_lock_id None; Set_updated_at (get_timestamp now)] t.

(** The WHERE clause of [get_ready_jobs]:
    [state = 'pending' AND (scheduled_at IS NULL OR scheduled_at <= ?)]. *)
Definition is_ready (current_time : string) (r : Job) : bool :=
  String.eqb (state r) "pending"
  && match scheduled_at r with
     | None => true
     | Some s => String.leb s current_time
     end.

(** [get_ready_jobs(limit)]. *)
Definition get_ready_jobs (limit : Z) (now : datetime) (t : table)
    : list Job :=
  let current_time := get_timestamp now in
  sql_limit limit (OrderBy.sort (filter (is_ready current_time) t)).

(** [list_jobs(state)]: with a state that Python takes for true (a
    string that is not empty),
    [SELECT * FROM jobs WHERE state = ? ORDER BY created_at]; with
    [None] or the empty string, every row in that order. *)
Definition list_jobs (state : option string) (t : table) : list Job :=
  match state with
  | Some s =>
      if String.eqb s "" then OrderBy.sort t
      else OrderBy.sort (filter (fun r => String.eqb (Storage.state r) s) t)
  | None => OrderBy.sort t
  end.

(** [delete_job]: [DELETE FROM jobs WHERE id = ?]. *)
Definition delete_job (job_id : string) (t : table) : table :=
  filter (fun r => negb (String.eqb (id r) job_id)) t.

End Storage.

(* ================================================================== *)
(** ** [src/job_manager.py] *)
(* ================================================================== *)

(** The JSON object submitted to [enqueue]: [None] is a missing key. *)
Module JobData.
Record t := {
  id : option string;
  command : option string;
  max_retries : option Z;
  scheduled_at : option string
}.
End JobData.

Module JobManager.
Import Storage.

(** The exceptions the lifecycle manager can leave with. *)
Inductive exn :=
| ValueError (msg : string)
| OverflowError
| IntegrityError.

(** The [ValueError]s the code raises, under the names of the error
    taxonomy. *)
Definition InvalidInput : exn :=
  ValueError "Job must have 'id' and 'command' fields".
Definition Duplicate (job_id : string) : exn :=
  ValueError ("Job with ID '" ++ job_id ++ "' already exists").
Definition NotFound (job_id : string) : exn :=
  ValueError ("Job not found: " ++ job_id).
Definition InvalidState (job_id : string) : exn :=
  ValueError ("Job is not in DLQ: " ++ job_id).

(** The records the module hands to [logger], one constructor a call. *)
Inductive level := INFO | WARNING | ERROR.

Inductive message :=
| Job_enqueued (job_id : string)
| Job_completed (job_id : string)
| Job_not_found (job_id : string)
| Job_moved_to_DLQ (attempts : Z) (job_id : string)
| Job_scheduled_for_retry (attempts : Z) (delay : Q) (job_id : string)
| Job_retried_from_DLQ (job_id : string)
| Database_error.

(** What a call can change: the table and the log. *)
Record world := {
  jobs : table;
  log : list (level * message)
}.

Inductive result (A : Type) :=
| Ok (a : A)
| Raise (e : exn).
Arguments Ok {A} a.
Arguments Raise {A} e.

(** State and exceptions: an exception ends the call and keeps what was
    written before it. *)
Definition M (A : Type) : Type := world -> result A * world.

Definition ret {A : Type} (a : A) : M A := fun w => (Ok a, w).

Definition bind {A B : Type} (m : M A) (k : A -> M B) : M B :=
  fun w =>
    match m w with
    | (Ok a, w') => k a w'
    | (Raise e, w') => (Raise e, w')
    end.

Definition raise {A : Type} (e : exn) : M A := fun w => (Raise e, w).

Notation "x <- m ;; k" := (bind m (fun x => k))
  (at level 61, m at next level, right associativity).
Notation "m ;; k" := (bind m (fun _ => k))
  (at level 61, right associativity).

Definition logger (lvl : level) (msg : message) : M unit :=
  fun w => (Ok tt, {| jobs := jobs w; log := log w ++ [(lvl, msg)] |}).

(** [self.storage.<call>]. *)
Definition storage_get_job (job_id : string) : M (option Job) :=
  fun w => (Ok (get_job job_id (jobs w)), w).

Definition storage_create_job (job : Job) : M unit :=
  fun w =>
    match create_job job (jobs w) with
    | Some t => (Ok tt, {| jobs := t; log := log w |})
    | None =>
        (Raise IntegrityError,
         {| jobs := jobs w; log := log w ++ [(ERROR, Database_error)] |})
    end.

Definition storage_update_job (job_id : string) (updates : list assignment)
    (now : datetime) : M unit :=
  fun w => (Ok tt, {| jobs := update_job job_id updates now (jobs w);
                      log := log w |}).

(** [datetime.utcnow() + timedelta(seconds=delay)]; [None] when Python
    raises [OverflowError]. *)
Definition utcnow_plus (utcnow : datetime) (delay : Q) : option datetime :=
  match timedelta delay with
  | None => None
  | Some td => datetime_add utcnow td
  end.

(** [enqueue(job_data)]. *)
Definition enqueue (config : Config.t) (job_data : JobData.t)
    (now : datetime) : M Job :=
  match JobData.id job_data, JobData.command job_data with
  | Some job_id, Some cmd =>
      existing <- storage_get_job job_id ;;
      match existing with
      | Some _ => raise (Duplicate job_id)
      | None =>
          let now := get_timestamp now in
          let job :=
            {| id := job_id;
               command := cmd;
               state := "pending";
               attempts := 0;
               max_retries :=
                 match JobData.max_retries job_data with
                 | Some m => m
                 | None => Config.max_retries config
                 end;
               created_at := now;
               updated_at := now;
               scheduled_at := JobData.scheduled_at job_data;
               error_message := None;
               lock_id := None |} in
          storage_create_job job ;;
          logger INFO (Job_enqueued (id job)) ;;
          ret job
      end
  | _, _ => raise InvalidInput
  end.

(** [mark_completed(job_id)]. *)
Definition mark_completed (job_id : string) (now : datetime) : M unit :=
  storage_update_job job_id
    [Set_state "completed"; Set_error_message None] now ;;
  logger INFO (Job_completed job_id).

(** [mark_failed(job_id, error_message)]: [utcnow] is the clock read
    for the retry time, [now] the later one read by [update_job]. *)
Definition mark_failed (config : Config.t) (job_id error_message : string)
    (utcnow now : datetime) : M unit :=
  job <- storage_get_job job_id ;;
  match job with
  | None => logger ERROR (Job_not_found job_id)
  | Some job =>
      let attempts := attempts job + 1 in
      let max_retries := max_retries job in
      if attempts >=? max_retries then
        storage_update_job job_id
          [Set_state "dead"; Set_attempts attempts;
           Set_error_message (Some error_message); Set_lock_id None] now ;;
        logger WARNING (Job_moved_to_DLQ attempts job_id)
      else
        let backoff_base := Config.backoff_base config in
        let delay := calculate_backoff_delay attempts backoff_base in
        match utcnow_plus utcnow delay with
        | None => raise OverflowError
        | Some scheduled =>
            let scheduled_at := isoformat scheduled in
            storage_update_job job_id
              [Set_state "pending"; Set_attempts attempts;
               Set_error_message (Some error_message);
               Set_scheduled_at (Some scheduled_at); Set_lock_id None] now ;;
            logger INFO (Job_scheduled_for_retry attempts delay job_id)
        end
  end.

(** [retry_from_dlq(job_id)]. *)
Definition retry_from_dlq (job_id : string) (now : datetime) : M unit :=
  job <- storage_get_job job_id ;;
  match job with
  | None => raise (NotFound job_id)
  | Some job =>
      if negb (String.eqb (state job) "dead") then
        raise (InvalidState job_id)
      else
        storage_update_job job_id
          [Set_state "pending"; Set_attempts 0; Set_error_message None;
           Set_scheduled_at None; Set_lock_id None] now ;;
        logger INFO (Job_retried_from_DLQ job_id)
  end.

(** [VALID_STATES]. *)
Definition VALID_STATES : list string :=
  ["pending"; "processing"; "completed"; "failed"; "dead"]%string.

Definition InvalidStateName (state : string) : exn :=
  ValueError ("Invalid state: " ++ state).

Definition storage_list_jobs (state : option string) : M (list Job) :=
  fun w => (Ok (Storage.list_jobs state (jobs w)), w).

(** [JobManager.list_jobs(state)]: [state and state not in VALID_STATES]
    raises; an empty string is not checked. *)
Definition list_jobs (state : option string) : M (list Job) :=
  match state with
  | Some s =>
      if negb (String.eqb s "")
         && negb (existsb (String.eqb s) VALID_STATES)
      then raise (InvalidStateName s)
      else storage_list_jobs state
  | None => storage_list_jobs state
  end.

(** The loop of [get_status]: [status[state] = len(list_jobs(state))]
    for the states left to visit; the dict keeps its keys in the order
    of [VALID_STATES]. *)
Fixpoint count_states (states : list string) : M (list (string * Z)) :=
  match states with
  | [] => ret []
  | state :: rest =>
      jobs <- storage_list_jobs (Some state) ;;
      counted <- count_states rest ;;
      ret ((state, Z.of_nat (List.length jobs)) :: counted)
  end.

(** [get_status()]. *)
Definition get_status : M (list (string * Z)) :=
  count_states VALID_STATES.

End JobManager.

(* ================================================================== *)
(** ** The lifecycle operations as a transition system *)
(* ================================================================== *)

Module Lifecycle.
Import Storage JobManager.

(** A call of one of the six lifecycle operations, with its arguments,
    the configuration its process loaded and the clock it read. *)
Inductive operation :=
| Enqueue (config : Config.t) (job_data : JobData.t) (now : datetime)
| Try_claim (job_id claimant : string) (now : datetime)
| Mark_completed (job_id : string) (now : datetime)
| Mark_failed (config : Config.t) (job_id err : string)
    (utcnow now : datetime)
| Retry_from_dlq (job_id : string) (now : datetime)
| Release (job_id claimant : string) (now : datetime).

(** The world after the call, whether it returned or raised. *)
Definition run (o : operation) (w : world) : world :=
  match o with
  | Enqueue config job_data now => snd (enqueue config job_data now w)
  | Try_claim job_id claimant now =>
      {| jobs := snd (acquire_job_lock job_id claimant now (jobs w));
         log := log w |}
  | Mark_completed job_id now => snd (mark_completed job_id now w)
  | Mark_failed config job_id err utcnow now =>
      snd (mark_failed config job_id err utcnow now w)
  | Retry_from_dlq job_id now => snd (retry_from_dlq job_id now w)
  | Release job_id claimant now =>
      {| jobs := release_job_lock job_id claimant now (jobs w);
         log := log w |}
  end.

Definition initial : world := {| jobs := []; log := [] |}.

(** The worlds some sequence of lifecycle operations leads to from the
    empty store. *)
Inductive reachable : world -> Prop :=
| reachable_initial : reachable initial
| reachable_run (o : operation) (w : world) :
    reachable w -> reachable (run o w).

(** The worlds reached from [w] by a list of operations, in order. *)
Definition run_all (ops : list operation) (w : world) : world :=
  fold_left (fun w o => run o w) ops w.

End Lifecycle.

(* ================================================================== *)
(** ** [src/worker.py]: the worker's loop *)
(* ================================================================== *)

Module Worker.
Import Storage JobManager.

(** What can end an iteration of the loop early: an exception of the
    lifecycle manager, or the [TypeError] of subscripting [None]. *)
Inductive error :=
| Manager_error (e : exn)
| TypeError.

(** The records the worker hands to [logger]; they are kept with the
    worker, apart from the records of the lifecycle manager. *)
Inductive worker_message :=
| Processing_job (job_id command : string)
| Completed_job (job_id : string)
| Failed_job (job_id error_msg : string)
| Found_ready_jobs (n : Z)
| Worker_error (e : error)
| Releasing_lock (job_id : string).

(** The fields of a [Worker] the loop reads and writes. *)
Record t := {
  worker_id : string;
  config : Config.t;
  current_job_id : option string;
  logged : list (level * worker_message)
}.

Definition set_current_job_id (self : t) (v : option string) : t :=
  {| worker_id := worker_id self; config := config self;
     current_job_id := v; logged := logged self |}.

Definition worker_logger (self : t) (lvl : level) (msg : worker_message)
    : t :=
  {| worker_id := worker_id self; config := config self;
     current_job_id := current_job_id self;
     logged := (logged self ++ [(lvl, msg)])%list |}.

(** The clock as one iteration reads it: in [get_ready_jobs], in
    [acquire_job_lock], in [mark_failed] for the retry time, in
    [update_job] and in [release_job_lock]. *)
Record ticks := {
  at_poll : datetime;
  at_claim : datetime;
  at_retry : datetime;
  at_mark : datetime;
  at_release : datetime
}.

(** [_process_job(job)].  [executed] is what [_execute_command]
    returned for the job's command: whether it succeeded, and the
    message. *)
Definition process_job (self : t) (job : Job) (executed : bool * string)
    (k : ticks) (w : world) : (error + unit) * t * world :=
  let job_id := id job in
  let self := set_current_job_id self (Some job_id) in
  let self := worker_logger self INFO (Processing_job job_id (command job)) in
  let (success, output) := executed in
  if success then
    match mark_completed job_id (at_mark k) w with
    | (Raise e, w) => (inl (Manager_error e), self, w)
    | (Ok _, w) =>
        let self := worker_logger self INFO (Completed_job job_id) in
        let w := {| jobs := release_job_lock job_id (worker_id self)
                              (at_release k) (jobs w);
                    log := log w |} in
        (inr tt, set_current_job_id self None, w)
    end
  else
    let error_msg := ("Command failed: " ++ output)%string in
    match mark_failed (config self) job_id error_msg (at_retry k) (at_mark k)
            w with
    | (Raise e, w) => (inl (Manager_error e), self, w)
    | (Ok _, w) =>
        let self := worker_logger self ERROR (Failed_job job_id error_msg) in
        let w := {| jobs := release_job_lock job_id (worker_id self)
                              (at_release k) (jobs w);
                    log := log w |} in
        (inr tt, set_current_job_id self None, w)
    end.

(** How one pass through the body of [while not self.should_stop]
    ended; all but [Processed] end in [time.sleep(poll_interval)]. *)
Inductive outcome :=
| Idle
| Lost_race
| Processed
| Errored (e : error).

(** One pass through the body of the loop of [run]. *)
Definition iteration (self : t) (executed : bool * string) (k : ticks)
    (w : world) : outcome * t * world :=
  let ready_jobs := get_ready_jobs 1 (at_poll k) (jobs w) in
  let self :=
    worker_logger self INFO
      (Found_ready_jobs (Z.of_nat (List.length ready_jobs))) in
  match ready_jobs with
  | [] => (Idle, self, w)
  | job :: _ =>
      let (acquired, t) :=
        acquire_job_lock (id job) (worker_id self) (at_claim k) (jobs w) in
      let w := {| jobs := t; log := log w |} in
      if acquired then
        match get_job (id job) (jobs w) with
        | None =>
            (Errored TypeError,
             worker_logger self ERROR (Worker_error TypeError), w)
        | Some job =>
            match process_job self job executed k w with
            | (inl e, self, w) =>
                (Errored e, worker_logger self ERROR (Worker_error e), w)
            | (inr _, self, w) => (Processed, self, w)
            end
        end
      else (Lost_race, self, w)
  end.


End Worker.

(* ================================================================== *)
(** ** The fields of a timestamp, for comparing timestamps *)
(* ================================================================== *)

(** The month and the day [ord2ymd] computes from the day of the year
    (from 0) and whether the year is a leap year. *)
Definition month_day (n : Z) (leapyear : bool) : Z * Z :=
  let month := Z.shiftr (n + 50) 5 in
  let preceding :=
    DAYS_BEFORE_MONTH month + (if (2 <? month) && leapyear then 1 else 0) in
  if n <? preceding then
    let month := month - 1 in
    let preceding :=
      preceding
      - (DAYS_IN_MONTH month + (if (month =? 2) && leapyear then 1 else 0)) in
    (month, n - preceding + 1)
  else (month, n - preceding + 1).

Definition days_in_year (year : Z) : Z := if is_leap year then 366 else 365.

(** Month and day as one number, [MMDD]. *)
Definition md_code (n : Z) (leapyear : bool) : Z :=
  fst (month_day n leapyear) * 100 + snd (month_day n leapyear).

(** The month and the day of day [k] of the year are a month and a day,
    and come before those of day [k + 1]. *)
Definition md_ok (leapyear : bool) (k : nat) : bool :=
  let n := Z.of_nat k in
  let '(m, d) := month_day n leapyear in
  (1 <=? m) && (m <=? 12) && (1 <=? d) && (d <=? 31)
  && (md_code n leapyear <? md_code (n + 1) leapyear).

(** The digits of [isoformat] read as numbers: [YYYYMMDD] of a day,
    [HHMMSSffffff] of the microseconds since midnight, and both. *)
Definition date_code (day : Z) : Z :=
  let '(y, m, d) := ord2ymd (day + 1) in (y * 100 + m) * 100 + d.

Definition time_code (rest : Z) : Z :=
  let hour := rest / (3600 * US_PER_SECOND) in
  let minute := (rest / (60 * US_PER_SECOND)) mod 60 in
  let second := (rest / US_PER_SECOND) mod 60 in
  let microsecond := rest mod US_PER_SECOND in
  ((hour * 100 + minute) * 100 + second) * 1000000 + microsecond.

Definition timestamp_code (dt : datetime) : Z :=
  date_code (dt / US_PER_DAY) * 1000000000000 + time_code (dt mod US_PER_DAY).

(** The end of [isoformat]: nothing when the microsecond is zero. *)
Definition fraction (microsecond : Z) : string :=
  if Z.eqb microsecond 0 then EmptyString
  else ("." ++ zero_padded 6 microsecond)%string.

Import Storage JobManager Lifecycle.
Local Open Scope string_scope.

(* ================================================================== *)
(** ** The vocabulary of the properties *)
(* ================================================================== *)

(** The primary key: no two rows share an [id]. *)
Definition primary_key (t : table) : Prop := NoDup (map id t).

(** Readiness in the words of the specification: the job is pending and
    its [scheduled_at] is absent or does not strictly exceed [now]. *)
Definition ready_per_spec (now : string) (j : Job) : bool :=
  String.eqb (state j) "pending"
  && match scheduled_at j with
     | None => true
     | Some s => negb (String.ltb now s)
     end.

(** The record [enqueue] builds. *)
Definition enqueued (config : Config.t) (job_data : JobData.t)
    (job_id cmd : string) (now : datetime) : Job :=
  {| id := job_id; command := cmd; state := "pending"; attempts := 0;
     max_retries :=
       match JobData.max_retries job_data with
       | Some m => m
       | None => Config.max_retries config
       end;
     created_at := get_timestamp now; updated_at := get_timestamp now;
     scheduled_at := JobData.scheduled_at job_data;
     error_message := None; lock_id := None |}.

(** What every sequence of lifecycle operations keeps true of a row. *)
Definition lock_discipline (r : Job) : Prop :=
  (state r = "pending" \/ state r = "processing"
   \/ state r = "completed" \/ state r = "dead")
  /\ (state r = "pending" \/ state r = "dead" -> lock_id r = None).

(** The calls the command line and the workers make: [enqueue] with a
    limit of at least one attempt ([enqueue] itself accepts any
    integer), and [mark_failed] on a job that is processing (a worker
    calls it on the job it has claimed). *)
Definition in_protocol (w : world) (o : operation) : Prop :=
  match o with
  | Enqueue config job_data _ =>
      1 <= match JobData.max_retries job_data with
           | Some m => m
           | None => Config.max_retries config
           end
  | Mark_failed _ job_id _ _ _ =>
      forall j, get_job job_id (jobs w) = Some j -> state j = "processing"
  | _ => True
  end.

Inductive reachable_in_protocol : world -> Prop :=
| protocol_initial : reachable_in_protocol initial
| protocol_run (o : operation) (w : world) :
    reachable_in_protocol w -> in_protocol w o ->
    reachable_in_protocol (run o w).

(** What those calls keep true of a row. *)
Definition retry_budget (r : Job) : Prop :=
  0 <= attempts r
  /\ 1 <= max_retries r
  /\ attempts r <= max_retries r
  /\ (state r = "pending" \/ state r = "processing" ->
      attempts r < max_retries r)
  /\ (state r = "dead" -> attempts r = max_retries r).

(** Every operation of the list is in the protocol when its turn comes. *)
Fixpoint all_in_protocol (ops : list operation) (w : world) : Prop :=
  match ops with
  | [] => True
  | o :: ops => in_protocol w o /\ all_in_protocol ops (run o w)
  end.

(** The number of rows in a state. *)
Definition count_in (s : string) (t : table) : Z :=
  Z.of_nat (List.length (filter (fun r => String.eqb (state r) s) t)).

(** [try_claim] on one job by each claimant in turn: what each was
    told, and the table afterwards. *)
Fixpoint claim_in_turn (job_id : string)
    (claimants : list (string * datetime)) (t : table)
    : list bool * table :=
  match claimants with
  | [] => ([], t)
  | (claimant, now) :: rest =>
      let (acquired, t) := acquire_job_lock job_id claimant now t in
      let (others, t) := claim_in_turn job_id rest t in
      (acquired :: others, t)
  end.

(** The operation is a [mark_completed] or a [mark_failed] of the job. *)
Definition settles (job_id : string) (o : operation) : Prop :=
  match o with
  | Mark_completed i _ => i = job_id
  | Mark_failed _ i _ _ _ => i = job_id
  | _ => False
  end.

(** One [mark_failed] of the job for each pair of clock readings. *)
Definition fail_each (config : Config.t) (job_id err : string)
    (clocks : list (datetime * datetime)) : list operation :=
  map (fun c => Mark_failed config job_id err (fst c) (snd c)) clocks.

(** Python can represent the retry time of each failure that leaves the
    job, after [n] attempts of [m], with attempts to spare. *)
Fixpoint retries_representable (config : Config.t) (n m : Z)
    (clocks : list (datetime * datetime)) : Prop :=
  match clocks with
  | [] => True
  | (utcnow, _) :: rest =>
      (n + 1 < m ->
       utcnow_plus utcnow
         (calculate_backoff_delay (n + 1) (Config.backoff_base config))
       <> None)
      /\ retries_representable config (n + 1) m rest
  end.

(* ================================================================== *)
(** ** Sample data *)
(* ================================================================== *)

Definition noon : datetime := mkdatetime 2025 1 1 12 0 0.

Definition one_second_later : datetime := noon + 1000000.

(** A job as [enqueue] leaves it. *)
Definition job_a : Job :=
  {| id := "a"; command := "true"; state := "pending"; attempts := 0;
     max_retries := 3; created_at := "2025-01-01T11:00:00";
     updated_at := "2025-01-01T11:00:00"; scheduled_at := None;
     error_message := None; lock_id := None |}.

(** A job a worker holds. *)
Definition job_b : Job :=
  {| id := "b"; command := "false"; state := "processing"; attempts := 0;
     max_retries := 3; created_at := "2025-01-01T11:30:00";
     updated_at := "2025-01-01T11:59:00"; scheduled_at := None;
     error_message := None; lock_id := Some "worker-0-1a2b3c4d" |}.

(** A job in the dead letter queue. *)
Definition job_c : Job :=
  {| id := "c"; command := "exit 1"; state := "dead"; attempts := 3;
     max_retries := 3; created_at := "2025-01-01T10:00:00";
     updated_at := "2025-01-01T10:30:00";
     scheduled_at := Some "2025-01-01T10:20:04";
     error_message := Some "Command failed: Non-zero exit code 1";
     lock_id := None |}.

(** A pending job whose [lock_id] is the empty string. *)
Definition job_e : Job :=
  {| id := "e"; command := "true"; state := "pending"; attempts := 0;
     max_retries := 3; created_at := "2025-01-01T11:00:00";
     updated_at := "2025-01-01T11:00:00"; scheduled_at := None;
     error_message := None; lock_id := Some "" |}.



(** A pending job due a microsecond after noon, and one due at noon. *)
Definition job_h : Job :=
  {| id := "h"; command := "date"; state := "pending"; attempts := 1;
     max_retries := 3; created_at := "2025-01-01T09:00:00";
     updated_at := "2025-01-01T11:59:58";
     scheduled_at := Some "2025-01-01T12:00:00.000001";
     error_message := Some "Command failed: Non-zero exit code 1";
     lock_id := None |}.

Definition job_i : Job :=
  {| id := "i"; command := "date"; state := "pending"; attempts := 1;
     max_retries := 3; created_at := "2025-01-01T09:30:00";
     updated_at := "2025-01-01T11:59:58";
     scheduled_at := Some "2025-01-01T12:00:00";
     error_message := Some "Command failed: Non-zero exit code 1";
     lock_id := None |}.

Definition job_x_dead : Job :=
  {| id := "x"; command := "false"; state := "dead"; attempts := 2;
     max_retries := 2; created_at := "2025-01-01T11:00:00";
     updated_at := "2025-01-01T12:00:05";
     scheduled_at := Some "2025-01-01T12:00:03";
     error_message := Some "Command failed: Non-zero exit code 1";
     lock_id := None |}.

Definition sample_world : world :=
  {| jobs := [job_a; job_b; job_c]; log := [] |}.

Definition queue : table := [job_a; job_b; job_c; job_h; job_i].


(** A worker wins the claim. *)
Definition enqueue_and_claim : list operation :=
  [Enqueue Config.DEFAULT_CONFIG
     {| JobData.id := Some "a"; JobData.command := Some "true";
        JobData.max_retries := None; JobData.scheduled_at := None |}
     (mkdatetime 2025 1 1 11 0 0);
   Try_claim "a" "worker-0-1a2b3c4d" noon].

Definition job_a_claimed : Job :=
  {| id := "a"; command := "true"; state := "processing"; attempts := 0;
     max_retries := 3; created_at := "2025-01-01T11:00:00";
     updated_at := "2025-01-01T12:00:00"; scheduled_at := None;
     error_message := None; lock_id := Some "worker-0-1a2b3c4d" |}.

(** A worker, and the clock as one pass of its loop reads it. *)
Definition worker_0 : Worker.t :=
  {| Worker.worker_id := "worker-0-1a2b3c4d";
     Worker.config := Config.DEFAULT_CONFIG;
     Worker.current_job_id := None;
     Worker.logged := [] |}.

Definition a_pass : Worker.ticks :=
  {| Worker.at_poll := noon;
     Worker.at_claim := noon + 1000;
     Worker.at_retry := one_second_later;
     Worker.at_mark := one_second_later + 1000;
     Worker.at_release := one_second_later + 2000 |}.

(** A worker wins the claim and the command succeeds. *)
Definition claim_and_complete : list operation :=
  [Enqueue Config.DEFAULT_CONFIG
     {| JobData.id := Some "a"; JobData.command := Some "true";
        JobData.max_retries := None; JobData.scheduled_at := None |}
     (mkdatetime 2025 1 1 11 0 0);
   Try_claim "a" "worker-0-1a2b3c4d" noon;
   Mark_completed "a" one_second_later].

(** A worker wins the claim and lets go of it at shutdown. *)
Definition claim_and_release : list operation :=
  [Enqueue Config.DEFAULT_CONFIG
     {| JobData.id := Some "a"; JobData.command := Some "true";
        JobData.max_retries := None; JobData.scheduled_at := None |}
     (mkdatetime 2025 1 1 11 0 0);
   Try_claim "a" "worker-0-1a2b3c4d" noon;
   Release "a" "worker-0-1a2b3c4d" one_second_later].

(** A job enqueued with [max_retries = 0] fails once. *)
Definition fail_without_budget : list operation :=
  [Enqueue Config.DEFAULT_CONFIG
     {| JobData.id := Some "z"; JobData.command := Some "false";
        JobData.max_retries := Some 0; JobData.scheduled_at := None |}
     (mkdatetime 2025 1 1 11 0 0);
   Try_claim "z" "worker-0-1a2b3c4d" noon;
   Mark_failed Config.DEFAULT_CONFIG "z"
     "Command failed: Non-zero exit code 1" one_second_later
     one_second_later].

(** A job with one attempt is failed twice. *)
Definition fail_twice : list operation :=
  [Enqueue Config.DEFAULT_CONFIG
     {| JobData.id := Some "y"; JobData.command := Some "false";
        JobData.max_retries := Some 1; JobData.scheduled_at := None |}
     (mkdatetime 2025 1 1 11 0 0);
   Try_claim "y" "worker-0-1a2b3c4d" noon;
   Mark_failed Config.DEFAULT_CONFIG "y"
     "Command failed: Non-zero exit code 1" one_second_later
     one_second_later;
   Mark_failed Config.DEFAULT_CONFIG "y"
     "Command failed: Non-zero exit code 1" one_second_later
     one_second_later].

(** A job with two attempts is claimed and fails, twice over. *)
Definition fail_into_dlq : list operation :=
  [Enqueue Config.DEFAULT_CONFIG
     {| JobData.id := Some "x"; JobData.command := Some "false";
        JobData.max_retries := Some 2; JobData.scheduled_at := None |}
     (mkdatetime 2025 1 1 11 0 0);
   Try_claim "x" "worker-0-1a2b3c4d" noon;
   Mark_failed Config.DEFAULT_CONFIG "x"
     "Command failed: Non-zero exit code 1" one_second_later
     one_second_later;
   Release "x" "worker-0-1a2b3c4d" one_second_later;
   Try_claim "x" "worker-1-5e6f7a8b" (mkdatetime 2025 1 1 12 0 4);
   Mark_failed Config.DEFAULT_CONFIG "x"
     "Command failed: Non-zero exit code 1" (mkdatetime 2025 1 1 12 0 5)
     (mkdatetime 2025 1 1 12 0 5)].

(* ================================================================== *)
(** ** Facts about the store *)
(* ================================================================== *)

Lemma assign_id (r : Job) (a : assignment) : id (assign r a) = id r.
Proof. destruct a; reflexivity. Qed.

Lemma fold_assign_id (set : list assignment) (r : Job) :
  id (fold_left assign set r) = id r.
Proof.
  revert r; induction set as [|a set IH]; intros r; simpl.
  - reflexivity.
  - rewrite IH. apply assign_id.
Qed.

Lemma sql_update_ids (cond : Job -> bool) (set : list assignment)
    (t : table) :
  map id (sql_update cond set t) = map id t.
Proof.
  unfold sql_update. rewrite map_map. apply map_ext.
  intros r. destruct (cond r); [apply fold_assign_id | reflexivity].
Qed.

Lemma get_job_sql_update (cond : Job -> bool) (set : list assignment)
    (job_id : string) (t : table) :
  get_job job_id (sql_update cond set t)
  = option_map (fun r => if cond r then fold_left assign set r else r)
      (get_job job_id t).
Proof.
  unfold get_job, sql_update.
  induction t as [|r t IH]; simpl; [reflexivity|].
  assert (E : id (if cond r then fold_left assign set r else r) = id r)
    by (destruct (cond r); [apply fold_assign_id | reflexivity]).
  rewrite E. destruct (String.eqb (id r) job_id); [reflexivity | exact IH].
Qed.

Lemma sql_update_untouched (cond : Job -> bool) (set : list assignment)
    (t : table) :
  (forall r, In r t -> cond r = false) -> sql_update cond set t = t.
Proof.
  intros H. unfold sql_update.
  rewrite <- (map_id t) at 2. apply map_ext_in.
  intros r Hr. rewrite (H r Hr). reflexivity.
Qed.

Lemma rowcount_zero (cond : Job -> bool) (t : table) :
  (forall r, In r t -> cond r = false) -> rowcount cond t = 0.
Proof.
  intros H. unfold rowcount.
  induction t as [|r t IH]; simpl; [reflexivity|].
  rewrite (H r (or_introl eq_refl)). apply IH.
  intros r' Hr'. apply H. right; exact Hr'.
Qed.

Lemma rowcount_positive (cond : Job -> bool) (t : table) (r : Job) :
  In r t -> cond r = true -> 0 < rowcount cond t.
Proof.
  intros Hin Hc. unfold rowcount.
  assert (Hf : In r (filter cond t)) by (apply filter_In; auto).
  destruct (filter cond t); [contradiction | simpl; lia].
Qed.

Lemma get_job_some (job_id : string) (t : table) (j : Job) :
  get_job job_id t = Some j -> In j t /\ id j = job_id.
Proof.
  unfold get_job. intros H. apply find_some in H.
  destruct H as [Hin He]. apply String.eqb_eq in He. auto.
Qed.

Lemma get_job_none (job_id : string) (t : table) :
  get_job job_id t = None -> forall r, In r t -> id r <> job_id.
Proof.
  unfold get_job. intros H r Hr E.
  apply (find_none _ _ H) in Hr. apply String.eqb_neq in Hr. contradiction.
Qed.

Lemma primary_key_unique (t : table) (r j : Job) :
  primary_key t -> In r t -> In j t -> id r = id j -> r = j.
Proof.
  unfold primary_key. induction t as [|x t IH]; simpl; intros Hnd Hr Hj E.
  - contradiction.
  - inversion Hnd as [|? ? Hx Hnd']; subst.
    destruct Hr as [<-|Hr], Hj as [<-|Hj]; auto.
    + exfalso. apply Hx. rewrite E. apply in_map; exact Hj.
    + exfalso. apply Hx. rewrite <- E. apply in_map; exact Hr.
Qed.

Lemma get_job_other (cond : Job -> bool) (set : list assignment)
    (job_id other : string) (t : table) :
  (forall r, cond r = true -> id r = job_id) ->
  other <> job_id ->
  get_job other (sql_update cond set t) = get_job other t.
Proof.
  intros Hc Hne. rewrite get_job_sql_update.
  destruct (get_job other t) as [r|] eqn:E; [|reflexivity].
  simpl. destruct (cond r) eqn:C; [|reflexivity].
  apply get_job_some in E. destruct E as [_ E].
  apply Hc in C. congruence.
Qed.

(* ================================================================== *)
(** ** [try_claim] and [mark_failed] on a job that is not there *)
(* ================================================================== *)

(** C10.  For every claimant and every id with no record in the store,
    [try_claim] ([acquire_job_lock]) returns false, raises nothing (it
    is a total function of the table) and leaves the table as it was. *)
Theorem try_claim_absent (t : table) (job_id claimant : string)
    (now : datetime) :
  get_job job_id t = None ->
  acquire_job_lock job_id claimant now t = (false, t).
Proof.
  intros H.
  assert (Hc : forall r, In r t -> claimable job_id r = false).
  { intros r Hr. unfold claimable.
    apply (get_job_none _ _ H) in Hr. apply String.eqb_neq in Hr.
    rewrite Hr. reflexivity. }
  unfold acquire_job_lock.
  rewrite (rowcount_zero _ _ Hc), (sql_update_untouched _ _ _ Hc).
  reflexivity.
Qed.

Lemma try_claim_absent_witness :
  get_job "ghost" (jobs sample_world) = None
  /\ acquire_job_lock "ghost" "worker-1-00000000" noon (jobs sample_world)
     = (false, jobs sample_world).
Proof.
  split; [reflexivity | apply try_claim_absent; reflexivity].
Defined.

(** C9.  For every id that is not in the store and every error message,
    [mark_failed] returns normally, leaves the table as it was and does
    nothing but log one error record; so does any repetition of it. *)
Theorem mark_failed_absent (config : Config.t) (w : world)
    (job_id err : string) (utcnow now : datetime) :
  get_job job_id (jobs w) = None ->
  mark_failed config job_id err utcnow now w
  = (Ok tt, {| jobs := jobs w;
               log := log w ++ [(ERROR, Job_not_found job_id)] |})
  /\ forall utcnow' now',
       jobs (snd (mark_failed config job_id err utcnow' now'
                    (snd (mark_failed config job_id err utcnow now w))))
       = jobs w.
Proof.
  intros H.
  assert (E : forall u n w', get_job job_id (jobs w') = None ->
    mark_failed config job_id err u n w'
    = (Ok tt, {| jobs := jobs w';
                 log := log w' ++ [(ERROR, Job_not_found job_id)] |})).
  { intros u n w' H'. unfold mark_failed, bind, storage_get_job.
    rewrite H'. reflexivity. }
  split; [apply E; exact H|].
  intros utcnow' now'. rewrite (E utcnow now w H). simpl.
  rewrite E; [reflexivity | exact H].
Qed.

Lemma mark_failed_absent_witness :
  get_job "ghost" (jobs sample_world) = None
  /\ mark_failed Config.DEFAULT_CONFIG "ghost" "boom" noon noon sample_world
     = (Ok tt, {| jobs := jobs sample_world;
                  log := [(ERROR, Job_not_found "ghost")] |}).
Proof.
  split; [reflexivity |].
  apply (mark_failed_absent Config.DEFAULT_CONFIG sample_world).
  reflexivity.
Defined.

(** The four errors of the taxonomy are four different exceptions. *)
Lemma error_taxonomy_distinct (job_id : string) :
  InvalidInput <> Duplicate job_id
  /\ NotFound job_id <> InvalidState job_id
  /\ InvalidInput <> NotFound job_id
  /\ InvalidInput <> InvalidState job_id
  /\ Duplicate job_id <> NotFound job_id
  /\ Duplicate job_id <> InvalidState job_id.
Proof.
  unfold InvalidInput, Duplicate, NotFound, InvalidState.
  repeat split; intros H; simpl in H; discriminate H.
Qed.

(* ================================================================== *)
(** ** [update_job] seen through [get_job] *)
(* ================================================================== *)

Lemma get_job_update_job (job_id : string) (set : list assignment)
    (now : datetime) (t : table) (j : Job) :
  get_job job_id t = Some j ->
  get_job job_id (update_job job_id set now t)
  = Some (fold_left assign (set ++ [Set_updated_at (get_timestamp now)]) j).
Proof.
  intros H. unfold update_job. rewrite get_job_sql_update, H. simpl.
  apply get_job_some in H. destruct H as [_ H].
  apply String.eqb_eq in H. rewrite H. reflexivity.
Qed.

Lemma get_job_update_job_other (job_id other : string)
    (set : list assignment) (now : datetime) (t : table) :
  other <> job_id ->
  get_job other (update_job job_id set now t) = get_job other t.
Proof.
  intros H. unfold update_job. apply get_job_other with (job_id := job_id).
  - intros r C. apply String.eqb_eq. exact C.
  - exact H.
Qed.

(* ================================================================== *)
(** ** [retry_from_dlq] and [enqueue]: the error paths *)
(* ================================================================== *)

(** C7.  [retry_from_dlq] raises NotFound when no job has the id and
    InvalidState when the job is not dead, and the store (and the log)
    are then what they were.  On a dead job it returns and the record
    reads back with state pending, attempts 0 and no error message,
    schedule or lock ([updated_at] is the time of the call); the other
    jobs read back as before. *)
Theorem retry_from_dlq_spec (w : world) (job_id : string) (now : datetime) :
  (get_job job_id (jobs w) = None ->
   retry_from_dlq job_id now w = (Raise (NotFound job_id), w))
  /\ (forall j, get_job job_id (jobs w) = Some j -> state j <> "dead" ->
      retry_from_dlq job_id now w = (Raise (InvalidState job_id), w))
  /\ (forall j, get_job job_id (jobs w) = Some j -> state j = "dead" ->
      exists w',
        retry_from_dlq job_id now w = (Ok tt, w')
        /\ get_job job_id (jobs w')
           = Some {| id := id j; command := command j; state := "pending";
                     attempts := 0; max_retries := max_retries j;
                     created_at := created_at j;
                     updated_at := get_timestamp now;
                     scheduled_at := None; error_message := None;
                     lock_id := None |}
        /\ forall other, other <> job_id ->
             get_job other (jobs w') = get_job other (jobs w)).
Proof.
  unfold retry_from_dlq, bind, storage_get_job.
  split; [|split].
  - intros H. rewrite H. reflexivity.
  - intros j H Hs. rewrite H.
    apply String.eqb_neq in Hs. rewrite Hs. reflexivity.
  - intros j H Hs. rewrite H.
    apply String.eqb_eq in Hs. rewrite Hs. simpl.
    eexists. split; [reflexivity|]. simpl. split.
    + rewrite (get_job_update_job _ _ _ _ _ H). reflexivity.
    + intros other Hne. apply get_job_update_job_other. exact Hne.
Qed.

Lemma retry_from_dlq_spec_witness :
  retry_from_dlq "ghost" noon sample_world
  = (Raise (NotFound "ghost"), sample_world)
  /\ retry_from_dlq "a" noon sample_world
     = (Raise (InvalidState "a"), sample_world)
  /\ exists w',
       retry_from_dlq "c" noon sample_world = (Ok tt, w')
       /\ get_job "c" (jobs w')
          = Some {| id := "c"; command := "exit 1"; state := "pending";
                    attempts := 0; max_retries := 3;
                    created_at := "2025-01-01T10:00:00";
                    updated_at := "2025-01-01T12:00:00";
                    scheduled_at := None; error_message := None;
                    lock_id := None |}.
Proof.
  destruct (retry_from_dlq_spec sample_world "ghost" noon) as [H1 _].
  destruct (retry_from_dlq_spec sample_world "a" noon) as [_ [H2 _]].
  destruct (retry_from_dlq_spec sample_world "c" noon) as [_ [_ H3]].
  split; [apply H1; reflexivity | split].
  - apply (H2 job_a); [reflexivity | discriminate].
  - destruct (H3 job_c eq_refl eq_refl) as [w' [E [G _]]].
    exists w'. split; [exact E | exact G].
Defined.



(* ================================================================== *)
(** ** [try_claim] *)
(* ================================================================== *)

Lemma claimable_id (job_id : string) (r : Job) :
  claimable job_id r = true -> id r = job_id.
Proof.
  unfold claimable. intros H.
  apply andb_true_iff in H. destruct H as [H _].
  apply andb_true_iff in H. destruct H as [H _].
  apply String.eqb_eq. exact H.
Qed.

Lemma claimable_iff (r : Job) :
  claimable (id r) r = true
  <-> state r = "pending" /\ (lock_id r = None \/ lock_id r = Some "").
Proof.
  unfold claimable. rewrite String.eqb_refl. simpl.
  rewrite andb_true_iff, String.eqb_eq.
  destruct (lock_id r) as [l|].
  - rewrite String.eqb_eq. split.
    + intros [-> H]. split; [exact H | right; reflexivity].
    + intros [H [H'|H']]; [discriminate | inversion H'; auto].
  - split.
    + intros [_ H]. split; [exact H | left; reflexivity].
    + intros [H _]. split; [reflexivity | exact H].
Qed.



Lemma sample_primary_key : primary_key (jobs sample_world).
Proof.
  unfold primary_key. simpl.
  repeat constructor; simpl; intuition discriminate.
Qed.



(* ================================================================== *)
(** ** [mark_failed] *)
(* ================================================================== *)






(** The same happens on a job's first failure when the operator has
    set [backoff_base] to 1000000000000. *)
Example mark_failed_overflow_large_base :
  mark_failed
    {| Config.max_retries := 3; Config.backoff_base := 1000000000000 # 1 |}
    "b" "Command failed: boom" noon noon sample_world
  = (Raise OverflowError, sample_world).
Proof. vm_compute. reflexivity. Qed.

(* ================================================================== *)
(** ** [mark_completed] *)
(* ================================================================== *)

(** C4, as the code has it.  For a job in the store, both calls of
    [mark_completed] return; after the first the record is completed
    with no error message, and the second changes no field of it but
    [updated_at], which becomes the time of the second call.  The
    record is identical after the second call when both calls read the
    same time. *)
Theorem mark_completed_twice (w : world) (job_id : string)
    (now1 now2 : datetime) (j : Job) :
  get_job job_id (jobs w) = Some j ->
  exists w1 w2 j1,
    mark_completed job_id now1 w = (Ok tt, w1)
    /\ mark_completed job_id now2 w1 = (Ok tt, w2)
    /\ get_job job_id (jobs w1) = Some j1
    /\ state j1 = "completed"
    /\ error_message j1 = None
    /\ get_job job_id (jobs w2)
       = Some {| id := id j1; command := command j1; state := state j1;
                 attempts := attempts j1; max_retries := max_retries j1;
                 created_at := created_at j1;
                 updated_at := get_timestamp now2;
                 scheduled_at := scheduled_at j1;
                 error_message := error_message j1;
                 lock_id := lock_id j1 |}
    /\ (get_timestamp now2 = get_timestamp now1 ->
        get_job job_id (jobs w2) = get_job job_id (jobs w1)).
Proof.
  intros Hj. unfold mark_completed, bind, storage_update_job, logger. simpl.
  do 3 eexists. split; [reflexivity|]. split; [reflexivity|]. simpl.
  pose proof (get_job_update_job job_id
                [Set_state "completed"; Set_error_message None] now1
                (jobs w) j Hj) as H1.
  split; [exact H1|]. split; [reflexivity|]. split; [reflexivity|].
  pose proof (get_job_update_job job_id
                [Set_state "completed"; Set_error_message None] now2
                _ _ H1) as H2.
  split.
  - rewrite H2. reflexivity.
  - intros E. rewrite H2, H1. simpl. rewrite E. reflexivity.
Qed.

Lemma mark_completed_twice_witness :
  exists w1 w2,
    mark_completed "b" noon sample_world = (Ok tt, w1)
    /\ mark_completed "b" one_second_later w1 = (Ok tt, w2)
    /\ get_job "b" (jobs w2)
       = Some {| id := "b"; command := "false"; state := "completed";
                 attempts := 0; max_retries := 3;
                 created_at := "2025-01-01T11:30:00";
                 updated_at := "2025-01-01T12:00:01";
                 scheduled_at := None; error_message := None;
                 lock_id := Some "worker-0-1a2b3c4d" |}.
Proof.
  destruct (mark_completed_twice sample_world "b" noon one_second_later
              job_b eq_refl)
    as [w1 [w2 [j1 [E1 [E2 [G1 [_ [_ [G2 _]]]]]]]]].
  exists w1, w2. split; [exact E1|]. split; [exact E2|].
  rewrite G2. injection E1 as <-. injection G1 as <-. reflexivity.
Defined.

(** The claim of C4 fails in [updated_at]: a second [mark_completed] one
    second after the first leaves a different record. *)
Lemma mark_completed_twice_differs :
  get_job "b" (jobs (snd (mark_completed "b" noon sample_world)))
  = Some {| id := "b"; command := "false"; state := "completed";
            attempts := 0; max_retries := 3;
            created_at := "2025-01-01T11:30:00";
            updated_at := "2025-01-01T12:00:00";
            scheduled_at := None; error_message := None;
            lock_id := Some "worker-0-1a2b3c4d" |}
  /\ get_job "b"
       (jobs (snd (mark_completed "b" one_second_later
                     (snd (mark_completed "b" noon sample_world)))))
     = Some {| id := "b"; command := "false"; state := "completed";
               attempts := 0; max_retries := 3;
               created_at := "2025-01-01T11:30:00";
               updated_at := "2025-01-01T12:00:01";
               scheduled_at := None; error_message := None;
               lock_id := Some "worker-0-1a2b3c4d" |}
  /\ get_job "b"
       (jobs (snd (mark_completed "b" one_second_later
                     (snd (mark_completed "b" noon sample_world)))))
     <> get_job "b" (jobs (snd (mark_completed "b" noon sample_world))).
Proof.
  split; [vm_compute; reflexivity|]. split; [vm_compute; reflexivity|].
  intros H. vm_compute in H. discriminate H.
Qed.

(* ================================================================== *)
(** ** [ready] *)
(* ================================================================== *)

Lemma string_leb_trans (a b c : string) :
  String.leb a b = true -> String.leb b c = true -> String.leb a c = true.
Proof.
  unfold String.leb. revert b c.
  induction a as [|x a IH]; intros [|y b] [|z c]; simpl;
    try reflexivity; try discriminate.
  unfold Ascii.compare.
  destruct (N.compare_spec (N_of_ascii x) (N_of_ascii y)) as [E1|L1|G1];
    destruct (N.compare_spec (N_of_ascii y) (N_of_ascii z)) as [E2|L2|G2];
    try discriminate; intros H1 H2.
  - rewrite E1, E2, N.compare_refl. exact (IH b c H1 H2).
  - rewrite E1. apply N.compare_lt_iff in L2. rewrite L2. reflexivity.
  - rewrite <- E2. apply N.compare_lt_iff in L1. rewrite L1. reflexivity.
  - assert (L : (N_of_ascii x < N_of_ascii z)%N) by lia.
    apply N.compare_lt_iff in L. rewrite L. reflexivity.
Qed.

Lemma leb_negb_ltb (a b : string) :
  String.leb a b = negb (String.ltb b a).
Proof.
  unfold String.leb, String.ltb. rewrite String.compare_antisym.
  destruct (String.compare b a); reflexivity.
Qed.

Lemma is_ready_per_spec (now : string) (j : Job) :
  is_ready now j = ready_per_spec now j.
Proof.
  unfold is_ready, ready_per_spec.
  destruct (scheduled_at j); [rewrite leb_negb_ltb|]; reflexivity.
Qed.

Lemma created_at_order_transitive :
  Transitive (fun x y => is_true (CreatedAtOrder.leb x y)).
Proof.
  intros x y z. unfold CreatedAtOrder.leb, is_true. apply string_leb_trans.
Qed.

(** C5.  For a limit that is a count ([0 <= limit]), [ready(limit)] is
    the first [limit] elements of a list [all] that holds exactly the
    pending jobs of the table whose [scheduled_at] is absent or at most
    now (each as often as the table has it, none whose [scheduled_at]
    strictly exceeds now) in ascending order of [created_at].  Times
    compare as the strings the store holds. *)
Theorem ready_spec (t : table) (limit : Z) (now : datetime) :
  0 <= limit ->
  exists all : list Job,
    get_ready_jobs limit now t = firstn (Z.to_nat limit) all
    /\ Permutation all (filter (ready_per_spec (get_timestamp now)) t)
    /\ (forall j, In j all <->
          In j t /\ state j = "pending"
          /\ (scheduled_at j = None
              \/ exists s, scheduled_at j = Some s
                           /\ String.leb s (get_timestamp now) = true))
    /\ (forall j s, scheduled_at j = Some s ->
          String.ltb (get_timestamp now) s = true -> ~ In j all)
    /\ StronglySorted
         (fun x y => String.leb (created_at x) (created_at y) = true) all.
Proof.
  intros Hl.
  set (ts := get_timestamp now).
  exists (OrderBy.sort (filter (is_ready ts) t)).
  assert (Hperm :
    Permutation (OrderBy.sort (filter (is_ready ts) t))
      (filter (ready_per_spec ts) t)).
  { rewrite (filter_ext _ _ (is_ready_per_spec ts)).
    symmetry. apply OrderBy.Permuted_sort. }
  assert (Hmem : forall j,
    In j (OrderBy.sort (filter (is_ready ts) t))
    <-> In j t /\ ready_per_spec ts j = true).
  { intros j. rewrite <- filter_In. split; apply Permutation_in;
      [exact Hperm | symmetry; exact Hperm]. }
  split; [|split; [|split; [|split]]].
  - unfold get_ready_jobs, sql_limit. fold ts.
    apply Z.ltb_ge in Hl. rewrite Hl. reflexivity.
  - exact Hperm.
  - intros j. rewrite Hmem. unfold ready_per_spec.
    rewrite andb_true_iff, String.eqb_eq.
    destruct (scheduled_at j) as [s|].
    + rewrite <- leb_negb_ltb. split.
      * intros [Hin [Hs Hd]]. split; [exact Hin|]. split; [exact Hs|].
        right. exists s. auto.
      * intros [Hin [Hs [Hd|[s' [E Hd]]]]]; [discriminate|].
        inversion E; subst. auto.
    + split.
      * intros [Hin [Hs _]]. auto.
      * intros [Hin [Hs _]]. auto.
  - intros j s Hs Hlt Hin. apply Hmem in Hin. destruct Hin as [_ Hr].
    unfold ready_per_spec in Hr. rewrite Hs, Hlt, andb_false_r in Hr.
    discriminate.
  - apply (OrderBy.StronglySorted_sort _ created_at_order_transitive).
Qed.

Lemma ready_spec_witness :
  0 <= 2
  /\ exists all : list Job,
       get_ready_jobs 2 noon queue = firstn 2 all
       /\ Permutation all [job_a; job_i].
Proof.
  split; [lia|].
  destruct (ready_spec queue 2 noon) as [all [E [P _]]]; [lia|].
  exists all. split; [exact E | exact P].
Defined.

(** What the query returns on the sample queue: [job_h] is due a
    microsecond after noon and is left out; [job_i], created first,
    comes before [job_a]. *)
Example ready_on_queue :
  get_ready_jobs 1 noon queue = [job_i]
  /\ get_ready_jobs 2 noon queue = [job_i; job_a]
  /\ get_ready_jobs 100 (noon + 1) queue = [job_h; job_i; job_a]
  /\ get_ready_jobs 0 noon queue = [].
Proof. repeat split; vm_compute; reflexivity. Qed.

(** A negative limit is no limit to SQLite. *)
Example ready_negative_limit :
  get_ready_jobs (-1) noon queue = [job_i; job_a].
Proof. vm_compute. reflexivity. Qed.

(* ================================================================== *)
(** ** The table after each lifecycle operation *)
(* ================================================================== *)

Lemma create_job_fresh (job : Job) (t : table) :
  get_job (id job) t = None -> create_job job t = Some (t ++ [job])%list.
Proof.
  intros H. unfold create_job.
  destruct (existsb (fun r => String.eqb (id r) (id job)) t) eqn:E;
    [|reflexivity].
  apply existsb_exists in E. destruct E as [r [Hr E]].
  apply String.eqb_eq in E. exfalso.
  exact (get_job_none _ _ H r Hr E).
Qed.

Lemma jobs_enqueue (config : Config.t) (job_data : JobData.t)
    (now : datetime) (w : world) :
  jobs (snd (enqueue config job_data now w)) = jobs w
  \/ exists job_id cmd,
       JobData.id job_data = Some job_id
       /\ JobData.command job_data = Some cmd
       /\ get_job job_id (jobs w) = None
       /\ jobs (snd (enqueue config job_data now w))
          = (jobs w ++ [enqueued config job_data job_id cmd now])%list.
Proof.
  unfold enqueue.
  destruct (JobData.id job_data) as [job_id|]; [|left; reflexivity].
  destruct (JobData.command job_data) as [cmd|]; [|left; reflexivity].
  unfold bind, storage_get_job.
  destruct (get_job job_id (jobs w)) eqn:G; [left; reflexivity|].
  right. exists job_id, cmd.
  split; [reflexivity|]. split; [reflexivity|]. split; [exact G|].
  cbv zeta. unfold storage_create_job.
  rewrite (create_job_fresh (enqueued config job_data job_id cmd now));
    [reflexivity | exact G].
Qed.

Lemma jobs_mark_completed (job_id : string) (now : datetime) (w : world) :
  jobs (snd (mark_completed job_id now w))
  = update_job job_id [Set_state "completed"; Set_error_message None] now
      (jobs w).
Proof. reflexivity. Qed.

Lemma jobs_mark_failed (config : Config.t) (job_id err : string)
    (utcnow now : datetime) (w : world) :
  jobs (snd (mark_failed config job_id err utcnow now w)) = jobs w
  \/ (exists j,
        get_job job_id (jobs w) = Some j
        /\ max_retries j <= attempts j + 1
        /\ jobs (snd (mark_failed config job_id err utcnow now w))
           = update_job job_id
               [Set_state "dead"; Set_attempts (attempts j + 1);
                Set_error_message (Some err); Set_lock_id None] now (jobs w))
  \/ (exists j due,
        get_job job_id (jobs w) = Some j
        /\ attempts j + 1 < max_retries j
        /\ jobs (snd (mark_failed config job_id err utcnow now w))
           = update_job job_id
               [Set_state "pending"; Set_attempts (attempts j + 1);
                Set_error_message (Some err);
                Set_scheduled_at (Some due); Set_lock_id None] now (jobs w)).
Proof.
  unfold mark_failed, bind, storage_get_job.
  destruct (get_job job_id (jobs w)) as [j|] eqn:G; [|left; reflexivity].
  rewrite Z.geb_leb.
  destruct (max_retries j <=? attempts j + 1)%Z eqn:E.
  - right. left. exists j. apply Z.leb_le in E. auto.
  - destruct (utcnow_plus utcnow _) as [due|]; [|left; reflexivity].
    right. right. exists j, (isoformat due). apply Z.leb_gt in E. auto.
Qed.

Lemma jobs_retry_from_dlq (job_id : string) (now : datetime) (w : world) :
  jobs (snd (retry_from_dlq job_id now w)) = jobs w
  \/ (exists j,
        get_job job_id (jobs w) = Some j
        /\ state j = "dead"
        /\ jobs (snd (retry_from_dlq job_id now w))
           = update_job job_id
               [Set_state "pending"; Set_attempts 0; Set_error_message None;
                Set_scheduled_at None; Set_lock_id None] now (jobs w)).
Proof.
  unfold retry_from_dlq, bind, storage_get_job.
  destruct (get_job job_id (jobs w)) as [j|] eqn:G; [|left; reflexivity].
  destruct (String.eqb (state j) "dead") eqn:E; [|left; reflexivity].
  right. exists j. apply String.eqb_eq in E. auto.
Qed.

(** A property of rows survives an UPDATE when the rows the UPDATE
    rewrites have it afterwards. *)
Lemma Forall_sql_update (P : Job -> Prop) (cond : Job -> bool)
    (set : list assignment) (t : table) :
  Forall P t ->
  (forall r, In r t -> cond r = true -> P r -> P (fold_left assign set r)) ->
  Forall P (sql_update cond set t).
Proof.
  intros H Hs. unfold sql_update. apply Forall_forall.
  intros r' Hr'. apply in_map_iff in Hr'. destruct Hr' as [r [<- Hr]].
  pose proof (proj1 (Forall_forall P t) H r Hr) as Pr.
  destruct (cond r) eqn:C; auto.
Qed.

Lemma Forall_update_job (P : Job -> Prop) (job_id : string)
    (set : list assignment) (now : datetime) (t : table) :
  Forall P t ->
  (forall r, In r t -> id r = job_id -> P r ->
     P (fold_left assign (set ++ [Set_updated_at (get_timestamp now)]) r)) ->
  Forall P (update_job job_id set now t).
Proof.
  intros H Hs. unfold update_job. apply Forall_sql_update; [exact H|].
  intros r Hr C. apply String.eqb_eq in C. auto.
Qed.

(** The primary key holds in every reachable world. *)
Lemma run_primary_key (o : operation) (w : world) :
  primary_key (jobs w) -> primary_key (jobs (run o w)).
Proof.
  unfold primary_key. intros H. destruct o; simpl.
  - destruct (jobs_enqueue config job_data now w)
      as [E|[job_id [cmd [_ [_ [G E]]]]]]; rewrite E; [exact H|].
    rewrite map_app. simpl.
    apply NoDup_app; [exact H | repeat constructor; simpl; tauto |].
    intros x Hx [<-|[]]. apply in_map_iff in Hx.
    destruct Hx as [r [E' Hr]]. exact (get_job_none _ _ G r Hr E').
  - unfold acquire_job_lock. simpl. rewrite sql_update_ids. exact H.
  - unfold update_job. rewrite sql_update_ids. exact H.
  - destruct (jobs_mark_failed config job_id err utcnow now w)
      as [E|[[j [_ [_ E]]]|[j [due [_ [_ E]]]]]]; rewrite E;
      unfold update_job; rewrite ?sql_update_ids; exact H.
  - destruct (jobs_retry_from_dlq job_id now w) as [E|[j [_ [_ E]]]];
      rewrite E; unfold update_job; rewrite ?sql_update_ids; exact H.
  - unfold release_job_lock. rewrite sql_update_ids. exact H.
Qed.

Lemma reachable_primary_key (w : world) :
  reachable w -> primary_key (jobs w).
Proof.
  induction 1 as [|o w _ IH].
  - constructor.
  - apply run_primary_key. exact IH.
Qed.

Lemma reachable_run_all (ops : list operation) (w : world) :
  reachable w -> reachable (run_all ops w).
Proof.
  revert w. induction ops as [|o ops IH]; intros w H; simpl.
  - exact H.
  - apply IH. constructor. exact H.
Qed.

(* ================================================================== *)
(** ** Locks and states in reachable worlds *)
(* ================================================================== *)

Ltac discipline :=
  unfold lock_discipline; simpl;
  split;
  [ tauto
  | let X := fresh "X" in
    intros [X|X]; first [discriminate X | reflexivity] ].

Lemma run_lock_discipline (o : operation) (w : world) :
  Forall lock_discipline (jobs w) ->
  Forall lock_discipline (jobs (run o w)).
Proof.
  intros H. destruct o; simpl.
  - destruct (jobs_enqueue config job_data now w)
      as [E|[job_id [cmd [_ [_ [_ E]]]]]]; rewrite E; [exact H|].
    apply Forall_app. split; [exact H|]. constructor; [|constructor].
    discipline.
  - unfold acquire_job_lock. simpl. apply Forall_sql_update; [exact H|].
    intros r _ _ _. discipline.
  - apply Forall_update_job; [exact H|]. intros r _ _ _. discipline.
  - destruct (jobs_mark_failed config job_id err utcnow now w)
      as [E|[[j [_ [_ E]]]|[j [due [_ [_ E]]]]]]; rewrite E;
      [exact H | |];
      (apply Forall_update_job; [exact H|]; intros r _ _ _; discipline).
  - destruct (jobs_retry_from_dlq job_id now w) as [E|[j [_ [_ E]]]];
      rewrite E; [exact H|].
    apply Forall_update_job; [exact H|]. intros r _ _ _. discipline.
  - unfold release_job_lock. apply Forall_sql_update; [exact H|].
    intros r _ _ [Hs _]. unfold lock_discipline. simpl.
    split; [exact Hs | reflexivity].
Qed.

Lemma reachable_lock_discipline (w : world) :
  reachable w -> Forall lock_discipline (jobs w).
Proof.
  induction 1 as [|o w _ IH].
  - constructor.
  - apply run_lock_discipline. exact IH.
Qed.

(** C3, as the code has it.  In every world a sequence of lifecycle
    operations reaches, a job that is pending or dead has no [lock_id],
    and a job that has a [lock_id] is processing or completed. *)
Theorem lock_implies_claimed (w : world) (j : Job) :
  reachable w ->
  In j (jobs w) ->
  (state j = "pending" \/ state j = "dead" -> lock_id j = None)
  /\ (lock_id j <> None -> state j = "processing" \/ state j = "completed").
Proof.
  intros Hr Hin.
  pose proof (proj1 (Forall_forall _ _) (reachable_lock_discipline w Hr) j Hin)
    as [Hs Hl].
  split; [exact Hl|].
  intros Hn. destruct Hs as [E|[E|[E|E]]]; auto;
    exfalso; apply Hn, Hl; auto.
Qed.

Lemma lock_implies_claimed_witness :
  reachable (run_all claim_and_complete initial)
  /\ In {| id := "a"; command := "true"; state := "completed";
           attempts := 0; max_retries := 3;
           created_at := "2025-01-01T11:00:00";
           updated_at := "2025-01-01T12:00:01";
           scheduled_at := None; error_message := None;
           lock_id := Some "worker-0-1a2b3c4d" |}
        (jobs (run_all claim_and_complete initial))
  /\ ("completed" = "processing" \/ "completed" = "completed").
Proof.
  split; [apply reachable_run_all; constructor|].
  split; [left; reflexivity|].
  refine (proj2 (lock_implies_claimed (run_all claim_and_complete initial)
                   {| id := "a"; command := "true"; state := "completed";
                      attempts := 0; max_retries := 3;
                      created_at := "2025-01-01T11:00:00";
                      updated_at := "2025-01-01T12:00:01";
                      scheduled_at := None; error_message := None;
                      lock_id := Some "worker-0-1a2b3c4d" |} _ _) _).
  - apply reachable_run_all. constructor.
  - left. reflexivity.
  - discriminate.
Defined.

(** The claim of C3 fails between [mark_completed] and [release]: the
    job is completed and still carries the worker's [lock_id]. *)
Lemma completed_job_keeps_lock :
  reachable (run_all claim_and_complete initial)
  /\ jobs (run_all claim_and_complete initial)
     = [{| id := "a"; command := "true"; state := "completed";
           attempts := 0; max_retries := 3;
           created_at := "2025-01-01T11:00:00";
           updated_at := "2025-01-01T12:00:01";
           scheduled_at := None; error_message := None;
           lock_id := Some "worker-0-1a2b3c4d" |}]
  /\ ~ (forall j, In j (jobs (run_all claim_and_complete initial)) ->
          (lock_id j <> None <-> state j = "processing")).
Proof.
  split; [apply reachable_run_all; constructor|].
  split; [reflexivity|].
  intros H.
  specialize (H _ (or_introl eq_refl)). simpl in H.
  destruct H as [H _].
  assert (E : "completed" = "processing") by (apply H; discriminate).
  discriminate E.
Qed.

(** It fails the other way after a [release] that no [mark_completed]
    or [mark_failed] went before: the job is processing with no lock. *)
Example released_job_stays_processing :
  reachable (run_all claim_and_release initial)
  /\ jobs (run_all claim_and_release initial)
     = [{| id := "a"; command := "true"; state := "processing";
           attempts := 0; max_retries := 3;
           created_at := "2025-01-01T11:00:00";
           updated_at := "2025-01-01T12:00:01";
           scheduled_at := None; error_message := None;
           lock_id := None |}].
Proof.
  split; [apply reachable_run_all; constructor | vm_compute; reflexivity].
Qed.

(* ================================================================== *)
(** ** Attempts and the retry limit *)
(* ================================================================== *)

Lemma reachable_in_protocol_reachable (w : world) :
  reachable_in_protocol w -> reachable w.
Proof. induction 1; constructor; assumption. Qed.

Ltac budget :=
  unfold retry_budget in *; simpl;
  repeat match goal with
         | |- _ /\ _ => split
         | |- _ \/ _ -> _ =>
             let X := fresh "X" in intros [X|X]; try discriminate X
         | |- _ = _ -> _ =>
             let X := fresh "X" in intros X; try discriminate X
         end;
  try tauto; try lia.

Lemma run_retry_budget (o : operation) (w : world) :
  primary_key (jobs w) ->
  in_protocol w o ->
  Forall retry_budget (jobs w) ->
  Forall retry_budget (jobs (run o w)).
Proof.
  intros Hpk Hp H. destruct o; simpl in *.
  - destruct (jobs_enqueue config job_data now w)
      as [E|[job_id [cmd [_ [_ [_ E]]]]]]; rewrite E; [exact H|].
    apply Forall_app. split; [exact H|]. constructor; [|constructor].
    budget.
  - unfold acquire_job_lock. simpl. apply Forall_sql_update; [exact H|].
    intros r _ C Pr.
    assert (Hs : state r = "pending").
    { unfold claimable in C. apply andb_true_iff in C.
      destruct C as [_ C]. apply String.eqb_eq. exact C. }
    destruct Pr as [A [B [C' [D _]]]]. specialize (D (or_introl Hs)).
    budget.
  - apply Forall_update_job; [exact H|]. intros r _ _ Pr.
    destruct Pr as [A [B [C _]]]. budget.
  - destruct (jobs_mark_failed config job_id err utcnow now w)
      as [E|[[j [G [Hn E]]]|[j [due [G [Hn E]]]]]]; rewrite E;
      [exact H | |];
      (apply Forall_update_job; [exact H|]; intros r Hr Hid Pr;
       pose proof (get_job_some _ _ _ G) as [Hin Hid'];
       assert (r = j)
         by (apply (primary_key_unique (jobs w)); auto; congruence);
       subst r;
       destruct Pr as [A [B [C [D _]]]];
       specialize (D (or_intror (Hp j G)));
       budget).
  - destruct (jobs_retry_from_dlq job_id now w) as [E|[j [_ [_ E]]]];
      rewrite E; [exact H|].
    apply Forall_update_job; [exact H|]. intros r _ _ Pr.
    destruct Pr as [A [B _]]. budget.
  - unfold release_job_lock. apply Forall_sql_update; [exact H|].
    intros r _ _ Pr. exact Pr.
Qed.

Lemma reachable_retry_budget (w : world) :
  reachable_in_protocol w -> Forall retry_budget (jobs w).
Proof.
  induction 1 as [|o w Hw IH Hp].
  - constructor.
  - apply run_retry_budget; [|exact Hp|exact IH].
    apply reachable_primary_key, reachable_in_protocol_reachable, Hw.
Qed.

(** C6, as the code has it.  In every world reached by lifecycle
    operations in which each [enqueue] carries a limit of at least one
    attempt and each [mark_failed] addresses a job that is processing,
    every job has [0 <= attempts <= max_retries] and every dead job has
    [attempts = max_retries]. *)
Theorem attempts_within_budget (w : world) (j : Job) :
  reachable_in_protocol w ->
  In j (jobs w) ->
  0 <= attempts j <= max_retries j
  /\ (state j = "dead" -> attempts j = max_retries j).
Proof.
  intros Hr Hin.
  pose proof (proj1 (Forall_forall _ _) (reachable_retry_budget w Hr) j Hin)
    as [A [_ [C [_ D]]]].
  auto.
Qed.

Lemma reachable_in_protocol_run_all (ops : list operation) (w : world) :
  reachable_in_protocol w -> all_in_protocol ops w ->
  reachable_in_protocol (run_all ops w).
Proof.
  revert w. induction ops as [|o ops IH]; intros w Hw Hops; simpl.
  - exact Hw.
  - destruct Hops as [Ho Hops]. apply IH; [|exact Hops].
    constructor; assumption.
Qed.

Lemma fail_into_dlq_in_protocol :
  reachable_in_protocol (run_all fail_into_dlq initial).
Proof.
  apply reachable_in_protocol_run_all; [constructor|].
  unfold fail_into_dlq, all_in_protocol, in_protocol.
  repeat split; try (vm_compute; discriminate);
    intros j Hj; vm_compute in Hj; injection Hj as <-; reflexivity.
Qed.

Lemma fail_into_dlq_jobs :
  jobs (run_all fail_into_dlq initial) = [job_x_dead].
Proof. vm_compute. reflexivity. Qed.

Lemma attempts_within_budget_witness :
  reachable_in_protocol (run_all fail_into_dlq initial)
  /\ In job_x_dead (jobs (run_all fail_into_dlq initial))
  /\ 0 <= attempts job_x_dead <= max_retries job_x_dead
  /\ (state job_x_dead = "dead"
      -> attempts job_x_dead = max_retries job_x_dead).
Proof.
  assert (Hin : In job_x_dead (jobs (run_all fail_into_dlq initial))).
  { rewrite fail_into_dlq_jobs. left. reflexivity. }
  split; [exact fail_into_dlq_in_protocol|].
  split; [exact Hin|].
  apply (attempts_within_budget (run_all fail_into_dlq initial) job_x_dead).
  - exact fail_into_dlq_in_protocol.
  - exact Hin.
Defined.

(** The claim of C6 fails for a job enqueued with [max_retries = 0],
    which [enqueue] accepts: its first failure sends it to the dead
    letter queue with [attempts = 1]. *)
Lemma dead_beyond_budget :
  reachable (run_all fail_without_budget initial)
  /\ jobs (run_all fail_without_budget initial)
     = [{| id := "z"; command := "false"; state := "dead"; attempts := 1;
           max_retries := 0; created_at := "2025-01-01T11:00:00";
           updated_at := "2025-01-01T12:00:01"; scheduled_at := None;
           error_message := Some "Command failed: Non-zero exit code 1";
           lock_id := None |}]
  /\ ~ (forall j, In j (jobs (run_all fail_without_budget initial)) ->
          (state j = "dead" -> attempts j = max_retries j)
          /\ 0 <= attempts j <= max_retries j).
Proof.
  split; [apply reachable_run_all; constructor|].
  split; [vm_compute; reflexivity|].
  intros H.
  destruct (H {| id := "z"; command := "false"; state := "dead";
                 attempts := 1; max_retries := 0;
                 created_at := "2025-01-01T11:00:00";
                 updated_at := "2025-01-01T12:00:01"; scheduled_at := None;
                 error_message :=
                   Some "Command failed: Non-zero exit code 1";
                 lock_id := None |}) as [_ [_ H']].
  - left. vm_compute. reflexivity.
  - simpl in H'. lia.
Qed.

(** So it does when [mark_failed] is called again on a job that is
    already dead: [attempts] passes [max_retries]. *)
Example failed_twice_beyond_budget :
  reachable (run_all fail_twice initial)
  /\ jobs (run_all fail_twice initial)
     = [{| id := "y"; command := "false"; state := "dead"; attempts := 2;
           max_retries := 1; created_at := "2025-01-01T11:00:00";
           updated_at := "2025-01-01T12:00:01"; scheduled_at := None;
           error_message := Some "Command failed: Non-zero exit code 1";
           lock_id := None |}].
Proof.
  split; [apply reachable_run_all; constructor | vm_compute; reflexivity].
Qed.

(* ================================================================== *)
(** ** The store: insert, look up, delete *)
(* ================================================================== *)

Lemma get_job_app (job_id : string) (t : table) (job : Job) :
  get_job job_id (t ++ [job])%list
  = match get_job job_id t with
    | Some r => Some r
    | None => if String.eqb (id job) job_id then Some job else None
    end.
Proof.
  unfold get_job. induction t as [|r t IH]; simpl.
  - reflexivity.
  - destruct (String.eqb (id r) job_id); [reflexivity | exact IH].
Qed.

Lemma create_job_taken (job : Job) (t : table) (j : Job) :
  get_job (id job) t = Some j -> create_job job t = None.
Proof.
  intros H. unfold create_job.
  apply get_job_some in H. destruct H as [Hin Hid].
  assert (E : existsb (fun r => String.eqb (id r) (id job)) t = true).
  { apply existsb_exists. exists j. split; [exact Hin|].
    apply String.eqb_eq. exact Hid. }
  rewrite E. reflexivity.
Qed.

(** X1.  [create_job] on an id the table does not have appends the row,
    which [get_job] then returns, and keeps the rows it had as they
    were; on an id the table has it fails (IntegrityError) whatever the
    other columns hold.  It keeps ids unique. *)
Theorem create_job_spec (job : Job) (t : table) :
  (get_job (id job) t = None ->
   create_job job t = Some (t ++ [job])%list
   /\ get_job (id job) (t ++ [job])%list = Some job
   /\ forall other, other <> id job ->
        get_job other (t ++ [job])%list = get_job other t)
  /\ (forall j, get_job (id job) t = Some j -> create_job job t = None)
  /\ (forall t', primary_key t -> create_job job t = Some t' ->
      primary_key t').
Proof.
  split; [|split].
  - intros H. split; [apply create_job_fresh; exact H|]. split.
    + rewrite get_job_app, H, String.eqb_refl. reflexivity.
    + intros other Hne. rewrite get_job_app.
      destruct (get_job other t); [reflexivity|].
      apply not_eq_sym in Hne. apply String.eqb_neq in Hne.
      rewrite Hne. reflexivity.
  - intros j. apply create_job_taken.
  - intros t' Hpk H.
    destruct (get_job (id job) t) as [j|] eqn:G.
    + rewrite (create_job_taken _ _ _ G) in H. discriminate H.
    + rewrite (create_job_fresh _ _ G) in H. injection H as <-.
      unfold primary_key in *. rewrite map_app. simpl.
      apply NoDup_app; [exact Hpk | repeat constructor; simpl; tauto |].
      intros x Hx [<-|[]]. apply in_map_iff in Hx.
      destruct Hx as [r [E Hr]]. exact (get_job_none _ _ G r Hr E).
Qed.

Lemma create_job_spec_witness :
  create_job job_e (jobs sample_world)
  = Some [job_a; job_b; job_c; job_e]
  /\ create_job job_a (jobs sample_world) = None.
Proof.
  destruct (create_job_spec job_e (jobs sample_world)) as [H1 _].
  destruct (create_job_spec job_a (jobs sample_world)) as [_ [H2 _]].
  split.
  - apply H1. reflexivity.
  - apply (H2 job_a). reflexivity.
Defined.

Lemma get_job_delete_job (job_id other : string) (t : table) :
  get_job other (delete_job job_id t)
  = if String.eqb other job_id then None else get_job other t.
Proof.
  unfold get_job, delete_job. induction t as [|r t IH]; simpl.
  - destruct (String.eqb other job_id); reflexivity.
  - destruct (String.eqb (id r) job_id) eqn:E; simpl.
    + rewrite IH. apply String.eqb_eq in E.
      destruct (String.eqb other job_id) eqn:E'; [reflexivity|].
      apply String.eqb_neq in E'.
      assert (N : String.eqb (id r) other = false)
        by (apply String.eqb_neq; congruence).
      rewrite N. reflexivity.
    + destruct (String.eqb (id r) other) eqn:E'.
      * apply String.eqb_eq in E'. rewrite <- E', E. reflexivity.
      * exact IH.
Qed.

Lemma delete_job_absent (job_id : string) (t : table) :
  get_job job_id t = None -> delete_job job_id t = t.
Proof.
  unfold delete_job, get_job.
  induction t as [|r t IH]; simpl; [reflexivity|].
  destruct (String.eqb (id r) job_id); [discriminate|].
  intros H. simpl. f_equal. exact (IH H).
Qed.

Lemma delete_job_primary_key (job_id : string) (t : table) :
  primary_key t -> primary_key (delete_job job_id t).
Proof.
  unfold primary_key, delete_job. intros Hpk.
  induction t as [|r t IH]; simpl; [constructor|].
  inversion Hpk as [|? ? Hx Hnd]; subst.
  destruct (negb (String.eqb (id r) job_id)); simpl; [|exact (IH Hnd)].
  constructor; [|exact (IH Hnd)].
  intros Hin. apply Hx. apply in_map_iff in Hin.
  destruct Hin as [x [E Hin]]. apply filter_In in Hin.
  apply in_map_iff. exists x. tauto.
Qed.

(** X2.  After [delete_job(id)] no job has the id, every other job
    reads back as before, ids stay unique, and the same id can be
    inserted again; deleting an id the table does not have changes
    nothing. *)
Theorem delete_job_spec (job_id : string) (t : table) :
  get_job job_id (delete_job job_id t) = None
  /\ (forall other, other <> job_id ->
      get_job other (delete_job job_id t) = get_job other t)
  /\ (get_job job_id t = None -> delete_job job_id t = t)
  /\ (primary_key t -> primary_key (delete_job job_id t))
  /\ (forall job, id job = job_id ->
      create_job job (delete_job job_id t)
      = Some (delete_job job_id t ++ [job])%list).
Proof.
  assert (Hgone : get_job job_id (delete_job job_id t) = None).
  { rewrite get_job_delete_job, String.eqb_refl. reflexivity. }
  split; [exact Hgone|]. split; [|split; [|split]].
  - intros other Hne. rewrite get_job_delete_job.
    apply String.eqb_neq in Hne. rewrite Hne. reflexivity.
  - apply delete_job_absent.
  - apply delete_job_primary_key.
  - intros job E. apply create_job_fresh. rewrite E. exact Hgone.
Qed.

Lemma delete_job_spec_witness :
  delete_job "ghost" (jobs sample_world) = jobs sample_world
  /\ delete_job "b" (jobs sample_world) = [job_a; job_c].
Proof.
  split.
  - apply (delete_job_spec "ghost" (jobs sample_world)). reflexivity.
  - reflexivity.
Defined.

(* ================================================================== *)
(** ** [release] *)
(* ================================================================== *)

(** X3.  On a table with unique ids, [release(id, claimant)] clears the
    [lock_id] of the job when it equals the claimant, setting
    [updated_at] and nothing else; when the job is absent or its
    [lock_id] is another string or NULL, the table is what it was.  No
    job changes state, and the other jobs read back as before. *)
Theorem release_spec (t : table) (job_id claimant : string)
    (now : datetime) :
  primary_key t ->
  (forall j, get_job job_id t = Some j -> lock_id j = Some claimant ->
   get_job job_id (release_job_lock job_id claimant now t)
   = Some {| id := id j; command := command j; state := state j;
             attempts := attempts j; max_retries := max_retries j;
             created_at := created_at j; updated_at := get_timestamp now;
             scheduled_at := scheduled_at j;
             error_message := error_message j; lock_id := None |})
  /\ ((forall j, get_job job_id t = Some j -> lock_id j <> Some claimant) ->
      release_job_lock job_id claimant now t = t)
  /\ (forall other, other <> job_id ->
      get_job other (release_job_lock job_id claimant now t)
      = get_job other t)
  /\ (forall i,
      option_map state (get_job i (release_job_lock job_id claimant now t))
      = option_map state (get_job i t)).
Proof.
  intros Hpk. unfold release_job_lock.
  split; [|split; [|split]].
  - intros j Hj Hl. rewrite get_job_sql_update, Hj. simpl.
    apply get_job_some in Hj. destruct Hj as [_ Hid].
    apply String.eqb_eq in Hid. rewrite Hid, Hl, String.eqb_refl.
    reflexivity.
  - intros H. apply sql_update_untouched. intros r Hr.
    destruct (String.eqb (id r) job_id) eqn:E; [|reflexivity]. simpl.
    apply String.eqb_eq in E.
    destruct (get_job job_id t) as [j|] eqn:G.
    + pose proof (get_job_some _ _ _ G) as [Hin Hid].
      assert (r = j)
        by (apply (primary_key_unique t); auto; congruence).
      subst r. specialize (H j eq_refl).
      destruct (lock_id j) as [l|]; [|reflexivity].
      apply String.eqb_neq. intros ->. apply H. reflexivity.
    + exfalso. exact (get_job_none _ _ G r Hr E).
  - intros other Hne. apply get_job_other with (job_id := job_id).
    + intros r C. apply andb_true_iff in C. destruct C as [C _].
      apply String.eqb_eq. exact C.
    + exact Hne.
  - intros i. rewrite get_job_sql_update.
    destruct (get_job i t) as [r|]; [|reflexivity]. simpl.
    destruct (_ && _); reflexivity.
Qed.

Lemma release_spec_witness :
  get_job "b"
    (release_job_lock "b" "worker-0-1a2b3c4d" noon (jobs sample_world))
  = Some {| id := "b"; command := "false"; state := "processing";
            attempts := 0; max_retries := 3;
            created_at := "2025-01-01T11:30:00";
            updated_at := "2025-01-01T12:00:00"; scheduled_at := None;
            error_message := None; lock_id := None |}
  /\ release_job_lock "b" "worker-1-5e6f7a8b" noon (jobs sample_world)
     = jobs sample_world.
Proof.
  split.
  - apply (proj1 (release_spec (jobs sample_world) "b" "worker-0-1a2b3c4d"
                    noon sample_primary_key) job_b); reflexivity.
  - apply (release_spec (jobs sample_world) "b" "worker-1-5e6f7a8b" noon
             sample_primary_key).
    intros j Hj. injection Hj as <-. discriminate.
Defined.

(* ================================================================== *)
(** ** [list] and [status] *)
(* ================================================================== *)

Lemma sort_length (l : list Job) :
  List.length (OrderBy.sort l) = List.length l.
Proof. symmetry. apply Permutation_length, OrderBy.Permuted_sort. Qed.

(** X4.  [JobManager.list_jobs(state)] raises ValueError, and changes
    nothing, for a state that is not empty and not one of the five; for
    one of the five it returns exactly the jobs in that state, and for
    [None] or the empty string it returns every job; the result is in
    ascending order of [created_at] in each case. *)
Theorem list_jobs_spec (w : world) :
  (forall s, s <> "" -> ~ In s VALID_STATES ->
   JobManager.list_jobs (Some s) w = (Raise (InvalidStateName s), w))
  /\ (forall s, In s VALID_STATES ->
      exists l,
        JobManager.list_jobs (Some s) w = (Ok l, w)
        /\ Permutation l
             (filter (fun r => String.eqb (state r) s) (jobs w))
        /\ (forall j, In j l <-> In j (jobs w) /\ state j = s)
        /\ StronglySorted
             (fun x y => String.leb (created_at x) (created_at y) = true) l)
  /\ (forall st, st = None \/ st = Some "" ->
      exists l,
        JobManager.list_jobs st w = (Ok l, w)
        /\ Permutation l (jobs w)
        /\ StronglySorted
             (fun x y => String.leb (created_at x) (created_at y) = true) l).
Proof.
  split; [|split].
  - intros s Hs Hn. unfold JobManager.list_jobs.
    apply String.eqb_neq in Hs.
    destruct (existsb (String.eqb s) VALID_STATES) eqn:E;
      [|rewrite Hs; reflexivity].
    exfalso. apply Hn. apply existsb_exists in E.
    destruct E as [x [Hx E]]. apply String.eqb_eq in E. subst x. exact Hx.
  - intros s Hs.
    assert (Hne : String.eqb s "" = false).
    { simpl in Hs. destruct Hs as [<-|[<-|[<-|[<-|[<-|[]]]]]]; reflexivity. }
    assert (Hv : existsb (String.eqb s) VALID_STATES = true).
    { apply existsb_exists. exists s. split; [exact Hs|].
      apply String.eqb_refl. }
    exists (OrderBy.sort (filter (fun r => String.eqb (state r) s) (jobs w))).
    assert (P : Permutation
      (OrderBy.sort (filter (fun r => String.eqb (state r) s) (jobs w)))
      (filter (fun r => String.eqb (state r) s) (jobs w)))
      by (symmetry; apply OrderBy.Permuted_sort).
    split; [|split; [|split]].
    + unfold JobManager.list_jobs, storage_list_jobs, Storage.list_jobs.
      rewrite Hne, Hv. reflexivity.
    + exact P.
    + intros j. rewrite <- String.eqb_eq.
      rewrite <- (filter_In (fun r => String.eqb (state r) s)).
      split; apply Permutation_in; [exact P | symmetry; exact P].
    + apply (OrderBy.StronglySorted_sort _ created_at_order_transitive).
  - intros st Hst. exists (OrderBy.sort (jobs w)).
    split; [|split].
    + destruct Hst as [->| ->]; reflexivity.
    + symmetry. apply OrderBy.Permuted_sort.
    + apply (OrderBy.StronglySorted_sort _ created_at_order_transitive).
Qed.

Lemma list_jobs_spec_witness :
  JobManager.list_jobs (Some "done") sample_world
  = (Raise (InvalidStateName "done"), sample_world)
  /\ exists l,
       JobManager.list_jobs (Some "dead") sample_world = (Ok l, sample_world)
       /\ Permutation l [job_c].
Proof.
  destruct (list_jobs_spec sample_world) as [H1 [H2 _]].
  split.
  - apply H1; [discriminate|].
    simpl. intuition discriminate.
  - destruct (H2 "dead") as [l [E [P _]]].
    + simpl. tauto.
    + exists l. split; [exact E | exact P].
Defined.

Lemma count_states_partition (t : table) :
  Forall lock_discipline t ->
  count_in "pending" t + count_in "processing" t + count_in "completed" t
  + count_in "dead" t = Z.of_nat (List.length t)
  /\ count_in "failed" t = 0.
Proof.
  unfold count_in. induction 1 as [|r t Hr _ IH]; [split; reflexivity|].
  destruct IH as [IH1 IH2].
  destruct Hr as [[E|[E|[E|E]]] _]; cbn -[Z.of_nat Z.add]; rewrite E;
    cbn -[Z.of_nat Z.add]; lia.
Qed.

(** X5.  [get_status()] returns, whatever the store holds, the five
    states in the order of [VALID_STATES], each with the number of jobs
    in it (0 when there is none), and changes nothing.  In every world
    the lifecycle operations reach, the counts add up to the number of
    jobs [list_jobs()] returns, and no job is counted as failed. *)
Theorem get_status_spec (w : world) :
  get_status w
  = (Ok [("pending", count_in "pending" (jobs w));
         ("processing", count_in "processing" (jobs w));
         ("completed", count_in "completed" (jobs w));
         ("failed", count_in "failed" (jobs w));
         ("dead", count_in "dead" (jobs w))], w)
  /\ (reachable w ->
      count_in "pending" (jobs w) + count_in "processing" (jobs w)
      + count_in "completed" (jobs w) + count_in "failed" (jobs w)
      + count_in "dead" (jobs w)
      = Z.of_nat (List.length (Storage.list_jobs None (jobs w)))
      /\ count_in "failed" (jobs w) = 0).
Proof.
  split.
  - unfold get_status, VALID_STATES, count_states, bind, storage_list_jobs,
      ret, Storage.list_jobs, count_in. simpl.
    rewrite !sort_length. reflexivity.
  - intros Hr. unfold Storage.list_jobs. rewrite sort_length.
    pose proof (count_states_partition _ (reachable_lock_discipline w Hr))
      as [Hs Hf].
    split; [lia | exact Hf].
Qed.

Lemma get_status_spec_witness :
  reachable (run_all claim_and_complete initial)
  /\ get_status (run_all claim_and_complete initial)
     = (Ok [("pending", 0); ("processing", 0); ("completed", 1);
            ("failed", 0); ("dead", 0)],
        run_all claim_and_complete initial).
Proof.
  split; [apply reachable_run_all; constructor|].
  rewrite (proj1 (get_status_spec (run_all claim_and_complete initial))).
  vm_compute. reflexivity.
Defined.

(* ================================================================== *)
(** ** [enqueue], and what the lifecycle keeps of a job *)
(* ================================================================== *)






Lemma fold_assign_kept (set : list assignment) (r : Job) :
  command (fold_left assign set r) = command r
  /\ max_retries (fold_left assign set r) = max_retries r
  /\ created_at (fold_left assign set r) = created_at r.
Proof.
  revert r. induction set as [|a set IH]; intros r; simpl.
  - auto.
  - destruct (IH (assign r a)) as [A [B C]].
    rewrite A, B, C. destruct a; auto.
Qed.

Lemma sql_update_keeps (cond : Job -> bool) (set : list assignment)
    (t : table) (j : Job) :
  In j t ->
  exists j', In j' (sql_update cond set t)
    /\ id j' = id j /\ command j' = command j
    /\ max_retries j' = max_retries j /\ created_at j' = created_at j.
Proof.
  intros Hin.
  exists (if cond j then fold_left assign set j else j). split.
  - unfold sql_update. apply in_map_iff. exists j. auto.
  - destruct (cond j); [|auto].
    destruct (fold_assign_kept set j) as [A [B C]].
    rewrite fold_assign_id. auto.
Qed.

(** X8.  No lifecycle operation removes a job or changes the [id],
    [command], [max_retries] or [created_at] of one: every job of the
    table has, after any operation, a successor with the same four. *)
Theorem lifecycle_keeps_jobs (o : operation) (w : world) (j : Job) :
  In j (jobs w) ->
  exists j',
    In j' (jobs (run o w))
    /\ id j' = id j /\ command j' = command j
    /\ max_retries j' = max_retries j /\ created_at j' = created_at j.
Proof.
  intros Hin.
  assert (Same : exists j', In j' (jobs w)
    /\ id j' = id j /\ command j' = command j
    /\ max_retries j' = max_retries j /\ created_at j' = created_at j)
    by (exists j; auto).
  destruct o; simpl.
  - destruct (jobs_enqueue config job_data now w)
      as [E|[job_id [cmd [_ [_ [_ E]]]]]]; rewrite E; [exact Same|].
    exists j. split; [apply in_or_app; left; exact Hin | auto].
  - unfold acquire_job_lock. simpl. apply sql_update_keeps. exact Hin.
  - unfold update_job. apply sql_update_keeps. exact Hin.
  - destruct (jobs_mark_failed config job_id err utcnow now w)
      as [E|[[r [_ [_ E]]]|[r [due [_ [_ E]]]]]]; rewrite E;
      [exact Same | |]; unfold update_job; apply sql_update_keeps;
      exact Hin.
  - destruct (jobs_retry_from_dlq job_id now w) as [E|[r [_ [_ E]]]];
      rewrite E; [exact Same|].
    unfold update_job. apply sql_update_keeps. exact Hin.
  - unfold release_job_lock. apply sql_update_keeps. exact Hin.
Qed.

Lemma lifecycle_keeps_jobs_witness :
  In job_c (jobs sample_world)
  /\ exists j',
       In j' (jobs (run (Retry_from_dlq "c" noon) sample_world))
       /\ id j' = "c" /\ command j' = "exit 1"
       /\ max_retries j' = 3 /\ created_at j' = "2025-01-01T10:00:00".
Proof.
  assert (Hin : In job_c (jobs sample_world))
    by (right; right; left; reflexivity).
  split; [exact Hin|].
  exact (lifecycle_keeps_jobs (Retry_from_dlq "c" noon) sample_world job_c
           Hin).
Defined.

(* ================================================================== *)
(** ** [mark_completed] on any job *)
(* ================================================================== *)

Lemma update_job_absent (job_id : string) (set : list assignment)
    (now : datetime) (t : table) :
  get_job job_id t = None -> update_job job_id set now t = t.
Proof.
  intros H. unfold update_job. apply sql_update_untouched.
  intros r Hr. apply String.eqb_neq. exact (get_job_none _ _ H r Hr).
Qed.

(** X9.  [mark_completed] checks neither that the job exists nor its
    state.  On a job in any state it returns, and the record reads back
    completed with no error message and [updated_at] set, its attempts,
    schedule and lock as they were; the other jobs read back as before.
    On an id the store does not have it returns as well, changes no
    row, and still logs the completion. *)
Theorem mark_completed_spec (w : world) (job_id : string) (now : datetime) :
  (forall j, get_job job_id (jobs w) = Some j ->
   exists w',
     mark_completed job_id now w = (Ok tt, w')
     /\ get_job job_id (jobs w')
        = Some {| id := id j; command := command j; state := "completed";
                  attempts := attempts j; max_retries := max_retries j;
                  created_at := created_at j;
                  updated_at := get_timestamp now;
                  scheduled_at := scheduled_at j; error_message := None;
                  lock_id := lock_id j |}
     /\ forall other, other <> job_id ->
          get_job other (jobs w') = get_job other (jobs w))
  /\ (get_job job_id (jobs w) = None ->
      mark_completed job_id now w
      = (Ok tt, {| jobs := jobs w;
                   log := (log w ++ [(INFO, Job_completed job_id)])%list |})).
Proof.
  unfold mark_completed, bind, storage_update_job, logger. simpl. split.
  - intros j Hj. eexists. split; [reflexivity|]. simpl. split.
    + rewrite (get_job_update_job _ _ _ _ _ Hj). reflexivity.
    + intros other Hne. apply get_job_update_job_other. exact Hne.
  - intros H. rewrite (update_job_absent _ _ _ _ H). reflexivity.
Qed.

Lemma mark_completed_spec_witness :
  (exists w',
     mark_completed "c" noon sample_world = (Ok tt, w')
     /\ get_job "c" (jobs w')
        = Some {| id := "c"; command := "exit 1"; state := "completed";
                  attempts := 3; max_retries := 3;
                  created_at := "2025-01-01T10:00:00";
                  updated_at := "2025-01-01T12:00:00";
                  scheduled_at := Some "2025-01-01T10:20:04";
                  error_message := None; lock_id := None |})
  /\ mark_completed "ghost" noon sample_world
     = (Ok tt, {| jobs := jobs sample_world;
                  log := [(INFO, Job_completed "ghost")] |}).
Proof.
  destruct (mark_completed_spec sample_world "c" noon) as [H1 _].
  destruct (mark_completed_spec sample_world "ghost" noon) as [_ H2].
  split.
  - destruct (H1 job_c eq_refl) as [w' [E [G _]]].
    exists w'. split; [exact E | exact G].
  - apply H2. reflexivity.
Defined.

(* ================================================================== *)
(** ** Claims: one winner, and what can be claimed *)
(* ================================================================== *)

Lemma acquire_refused (t : table) (job_id claimant : string)
    (now : datetime) (j : Job) :
  primary_key t -> get_job job_id t = Some j ->
  claimable job_id j = false ->
  acquire_job_lock job_id claimant now t = (false, t).
Proof.
  intros Hpk Hj C.
  pose proof (get_job_some _ _ _ Hj) as [Hin Hid].
  assert (Hall : forall r, In r t -> claimable job_id r = false).
  { intros r Hr. destruct (claimable job_id r) eqn:Cr; [|reflexivity].
    assert (r = j).
    { apply (primary_key_unique t); auto.
      apply claimable_id in Cr. congruence. }
    congruence. }
  unfold acquire_job_lock.
  rewrite (rowcount_zero _ _ Hall), (sql_update_untouched _ _ _ Hall).
  reflexivity.
Qed.

Lemma acquire_granted (t : table) (job_id claimant : string)
    (now : datetime) (j : Job) :
  get_job job_id t = Some j ->
  claimable job_id j = true ->
  fst (acquire_job_lock job_id claimant now t) = true
  /\ get_job job_id (snd (acquire_job_lock job_id claimant now t))
     = Some {| id := id j; command := command j; state := "processing";
               attempts := attempts j; max_retries := max_retries j;
               created_at := created_at j; updated_at := get_timestamp now;
               scheduled_at := scheduled_at j;
               error_message := error_message j;
               lock_id := Some claimant |}.
Proof.
  intros Hj C. pose proof (get_job_some _ _ _ Hj) as [Hin _].
  unfold acquire_job_lock. simpl. split.
  - apply Z.ltb_lt. apply rowcount_positive with (r := j); assumption.
  - rewrite get_job_sql_update, Hj. simpl. rewrite C. reflexivity.
Qed.

Lemma acquire_primary_key (t : table) (job_id claimant : string)
    (now : datetime) :
  primary_key t ->
  primary_key (snd (acquire_job_lock job_id claimant now t)).
Proof.
  unfold primary_key, acquire_job_lock. simpl.
  rewrite sql_update_ids. auto.
Qed.

Lemma claim_in_turn_refused (t : table) (job_id : string)
    (claimants : list (string * datetime)) (j : Job) :
  primary_key t -> get_job job_id t = Some j ->
  claimable job_id j = false ->
  claim_in_turn job_id claimants t = (map (fun _ => false) claimants, t).
Proof.
  intros Hpk Hj C.
  induction claimants as [|[c now] rest IH]; cbn [claim_in_turn map];
    [reflexivity|].
  rewrite (acquire_refused t job_id c now j Hpk Hj C), IH. reflexivity.
Qed.

(** X10.  On a table with unique ids, when any number of claimants call
    [try_claim] on one job in turn, the first is told true and every
    later one false if the job is pending with its [lock_id] NULL or
    empty, and the job is then processing under the first claimant's
    lock; in any other state everyone is told false and the table is
    what it was. *)
Theorem one_claimant_wins (t : table) (job_id : string) (j : Job)
    (first : string * datetime) (rest : list (string * datetime)) :
  primary_key t ->
  get_job job_id t = Some j ->
  (state j = "pending" /\ (lock_id j = None \/ lock_id j = Some "") ->
   fst (claim_in_turn job_id (first :: rest) t)
   = true :: map (fun _ => false) rest
   /\ get_job job_id (snd (claim_in_turn job_id (first :: rest) t))
      = Some {| id := id j; command := command j; state := "processing";
                attempts := attempts j; max_retries := max_retries j;
                created_at := created_at j;
                updated_at := get_timestamp (snd first);
                scheduled_at := scheduled_at j;
                error_message := error_message j;
                lock_id := Some (fst first) |})
  /\ (~ (state j = "pending" /\ (lock_id j = None \/ lock_id j = Some "")) ->
      claim_in_turn job_id (first :: rest) t
      = (false :: map (fun _ => false) rest, t)).
Proof.
  intros Hpk Hj.
  pose proof (get_job_some _ _ _ Hj) as [_ Hid].
  pose proof (claimable_iff j) as Hiff. rewrite Hid in Hiff.
  split.
  - intros Hc. apply Hiff in Hc. destruct first as [c now].
    destruct (acquire_granted t job_id c now j Hj Hc) as [Ha Hg].
    pose proof (acquire_primary_key t job_id c now Hpk) as Hpk'.
    cbn [claim_in_turn fst snd].
    destruct (acquire_job_lock job_id c now t) as [b t'].
    cbn [fst snd] in Ha, Hg, Hpk'. subst b.
    rewrite (claim_in_turn_refused t' job_id rest _ Hpk' Hg).
    + cbn [fst snd]. split; [reflexivity | exact Hg].
    + unfold claimable. simpl. apply andb_false_r.
  - intros Hn.
    apply (claim_in_turn_refused t job_id (first :: rest) j Hpk Hj).
    apply not_true_is_false. intros C. apply Hn, Hiff, C.
Qed.

Lemma one_claimant_wins_witness :
  fst (claim_in_turn "a"
         [("worker-0-1a2b3c4d", noon); ("worker-1-5e6f7a8b", noon);
          ("worker-2-9c0d1e2f", one_second_later)]
         (jobs sample_world))
  = [true; false; false]
  /\ claim_in_turn "c"
       [("worker-0-1a2b3c4d", noon); ("worker-1-5e6f7a8b", noon)]
       (jobs sample_world)
     = ([false; false], jobs sample_world).
Proof.
  split.
  - apply (one_claimant_wins (jobs sample_world) "a" job_a
             ("worker-0-1a2b3c4d", noon)
             [("worker-1-5e6f7a8b", noon);
              ("worker-2-9c0d1e2f", one_second_later)]
             sample_primary_key eq_refl).
    split; [reflexivity | left; reflexivity].
  - apply (one_claimant_wins (jobs sample_world) "c" job_c
             ("worker-0-1a2b3c4d", noon) [("worker-1-5e6f7a8b", noon)]
             sample_primary_key eq_refl).
    intros [E _]. discriminate E.
Defined.

Lemma sql_limit_In (n : Z) (rows : list Job) (j : Job) :
  In j (sql_limit n rows) -> In j rows.
Proof.
  unfold sql_limit. destruct (n <? 0)%Z; [auto|].
  revert rows. induction (Z.to_nat n) as [|k IH]; intros rows; simpl.
  - tauto.
  - destruct rows as [|r rows]; simpl; [tauto|].
    intros [E|H]; [left; exact E | right; exact (IH rows H)].
Qed.

Lemma get_ready_jobs_In (limit : Z) (now : datetime) (t : table) (j : Job) :
  In j (get_ready_jobs limit now t) ->
  In j t /\ is_ready (get_timestamp now) j = true.
Proof.
  unfold get_ready_jobs. intros H. apply sql_limit_In in H.
  apply (Permutation_in _ (Permutation_sym (OrderBy.Permuted_sort _))) in H.
  apply filter_In in H. exact H.
Qed.




(** X12.  A job that is processing is not returned by [ready] and
    cannot be claimed, and [enqueue], [try_claim], [retry_from_dlq],
    [release] and the [mark_completed] and [mark_failed] of other jobs
    leave it processing with the attempts it had: only a
    [mark_completed] or [mark_failed] of the job itself moves it. *)
Theorem processing_job_stays (w : world) (o : operation) (job_id : string)
    (j : Job) :
  primary_key (jobs w) ->
  get_job job_id (jobs w) = Some j ->
  state j = "processing" ->
  (forall limit now j0, In j0 (get_ready_jobs limit now (jobs w)) ->
     id j0 <> job_id)
  /\ (forall claimant now,
        acquire_job_lock job_id claimant now (jobs w) = (false, jobs w))
  /\ (~ settles job_id o ->
      exists j',
        get_job job_id (jobs (run o w)) = Some j'
        /\ state j' = "processing" /\ attempts j' = attempts j).
Proof.
  intros Hpk Hj Hs.
  pose proof (get_job_some _ _ _ Hj) as [Hin Hid].
  assert (C : forall i, claimable i j = false).
  { intros i. unfold claimable. rewrite Hs. apply andb_false_r. }
  split; [|split].
  - intros limit now j0 H0 E. apply get_ready_jobs_In in H0.
    destruct H0 as [Hin0 Hr0].
    assert (j0 = j) by (apply (primary_key_unique (jobs w)); auto; congruence).
    subst j0. unfold is_ready in Hr0. rewrite Hs in Hr0. discriminate Hr0.
  - intros claimant now. apply (acquire_refused _ _ _ _ j Hpk Hj (C job_id)).
  - intros Hn.
    assert (Same : exists j', get_job job_id (jobs w) = Some j'
      /\ state j' = "processing" /\ attempts j' = attempts j)
      by (exists j; auto).
    destruct o; simpl in *.
    + destruct (jobs_enqueue config job_data now w)
        as [E|[i [cmd [_ [_ [_ E]]]]]]; rewrite E; [exact Same|].
      exists j. rewrite get_job_app, Hj. auto.
    + exists j. unfold acquire_job_lock. simpl.
      rewrite get_job_sql_update, Hj. simpl. rewrite C. auto.
    + exists j. rewrite get_job_update_job_other; auto.
    + destruct (jobs_mark_failed config job_id0 err utcnow now w)
        as [E|[[r [_ [_ E]]]|[r [due [_ [_ E]]]]]]; rewrite E;
        [exact Same | |]; exists j; rewrite get_job_update_job_other; auto.
    + destruct (jobs_retry_from_dlq job_id0 now w) as [E|[r [G [Hd E]]]];
        rewrite E; [exact Same|].
      exists j. rewrite get_job_update_job_other; auto.
      intros <-. rewrite Hj in G. injection G as <-.
      rewrite Hs in Hd. discriminate Hd.
    + unfold release_job_lock. rewrite get_job_sql_update, Hj. simpl.
      destruct (_ && _); eexists; (split; [reflexivity|]); auto.
Qed.

Lemma enqueue_and_claim_jobs :
  jobs (run_all enqueue_and_claim initial) = [job_a_claimed].
Proof. vm_compute. reflexivity. Qed.

Lemma processing_job_stays_witness :
  acquire_job_lock "a" "worker-1-5e6f7a8b" one_second_later [job_a_claimed]
  = (false, [job_a_claimed])
  /\ exists j',
       get_job "a"
         (jobs (run (Release "a" "worker-0-1a2b3c4d" one_second_later)
                  {| jobs := [job_a_claimed]; log := [] |})) = Some j'
       /\ state j' = "processing" /\ attempts j' = 0.
Proof.
  assert (Hpk : primary_key [job_a_claimed])
    by (repeat constructor; simpl; tauto).
  destruct (processing_job_stays {| jobs := [job_a_claimed]; log := [] |}
              (Release "a" "worker-0-1a2b3c4d" one_second_later) "a"
              job_a_claimed Hpk eq_refl eq_refl) as [_ [H2 H3]].
  split; [apply H2 | apply H3; simpl; tauto].
Defined.

(* ================================================================== *)
(** ** Failing until the dead letter queue *)
(* ================================================================== *)

Lemma mark_failed_dead_run (config : Config.t) (w : world)
    (job_id err : string) (utcnow now : datetime) (j : Job) :
  get_job job_id (jobs w) = Some j ->
  max_retries j <= attempts j + 1 ->
  get_job job_id (jobs (snd (mark_failed config job_id err utcnow now w)))
  = Some {| id := id j; command := command j; state := "dead";
            attempts := attempts j + 1; max_retries := max_retries j;
            created_at := created_at j; updated_at := get_timestamp now;
            scheduled_at := scheduled_at j; error_message := Some err;
            lock_id := None |}.
Proof.
  intros Hj Hn. unfold mark_failed, bind, storage_get_job. rewrite Hj.
  rewrite Z.geb_leb. apply Z.leb_le in Hn. rewrite Hn. simpl.
  rewrite (get_job_update_job _ _ _ _ _ Hj). reflexivity.
Qed.

Lemma mark_failed_retry_run (config : Config.t) (w : world)
    (job_id err : string) (utcnow now : datetime) (j : Job) :
  get_job job_id (jobs w) = Some j ->
  attempts j + 1 < max_retries j ->
  utcnow_plus utcnow
    (calculate_backoff_delay (attempts j + 1) (Config.backoff_base config))
  <> None ->
  exists due,
    get_job job_id (jobs (snd (mark_failed config job_id err utcnow now w)))
    = Some {| id := id j; command := command j; state := "pending";
              attempts := attempts j + 1; max_retries := max_retries j;
              created_at := created_at j; updated_at := get_timestamp now;
              scheduled_at := Some due; error_message := Some err;
              lock_id := None |}.
Proof.
  intros Hj Hn Hr. unfold mark_failed, bind, storage_get_job. rewrite Hj.
  rewrite Z.geb_leb. apply Z.leb_gt in Hn. rewrite Hn.
  destruct (utcnow_plus utcnow _) as [due|]; [|contradiction].
  exists (isoformat due). simpl.
  rewrite (get_job_update_job _ _ _ _ _ Hj). reflexivity.
Qed.

(** X13.  A job with attempts to spare ([attempts < max_retries]) that
    fails [max_retries - attempts] times in a row ends in the dead
    letter queue with [attempts = max_retries], the last error message
    and no lock, provided Python can represent the retry time of each
    failure before the last.  So [retry_from_dlq] followed by
    [max_retries] failures returns a job to the dead letter queue. *)
Theorem failures_until_dead (config : Config.t) (job_id err : string)
    (clocks : list (datetime * datetime)) (w : world) (j : Job) :
  get_job job_id (jobs w) = Some j ->
  attempts j < max_retries j ->
  Z.of_nat (List.length clocks) = max_retries j - attempts j ->
  retries_representable config (attempts j) (max_retries j) clocks ->
  exists j',
    get_job job_id (jobs (run_all (fail_each config job_id err clocks) w))
    = Some j'
    /\ state j' = "dead"
    /\ attempts j' = max_retries j
    /\ max_retries j' = max_retries j
    /\ error_message j' = Some err
    /\ lock_id j' = None.
Proof.
  revert w j. induction clocks as [|[utcnow now] rest IH];
    intros w j Hj Ha Hl Hr.
  - simpl in Hl. lia.
  - cbn [fail_each map run_all fold_left fst snd run].
    fold (fail_each config job_id err rest).
    fold (run_all (fail_each config job_id err rest)
            (snd (mark_failed config job_id err utcnow now w))).
    destruct Hr as [Hrep Hr].
    destruct (Z.lt_ge_cases (attempts j + 1) (max_retries j)) as [Hlt|Hge].
    + destruct (mark_failed_retry_run config w job_id err utcnow now j Hj
                  Hlt (Hrep Hlt)) as [due Hj1].
      destruct (IH _ _ Hj1) as [j' [G [S [A [M [E L]]]]]].
      * exact Hlt.
      * cbn [List.length] in Hl. simpl attempts. simpl max_retries. lia.
      * exact Hr.
      * exists j'. simpl in A, M. repeat split; assumption.
    + assert (rest = []).
      { destruct rest; [reflexivity|]. cbn [List.length] in Hl. lia. }
      subst rest. cbn [fail_each map run_all fold_left].
      rewrite (mark_failed_dead_run config w job_id err utcnow now j Hj Hge).
      eexists. split; [reflexivity|]. simpl. repeat split; try reflexivity.
      lia.
Qed.

Lemma retried_from_dlq_jobs :
  get_job "c" (jobs (run (Retry_from_dlq "c" noon) sample_world))
  = Some {| id := "c"; command := "exit 1"; state := "pending";
            attempts := 0; max_retries := 3;
            created_at := "2025-01-01T10:00:00";
            updated_at := "2025-01-01T12:00:00"; scheduled_at := None;
            error_message := None; lock_id := None |}.
Proof. vm_compute. reflexivity. Qed.

Lemma failures_until_dead_witness :
  exists j',
    get_job "c"
      (jobs (run_all
               (fail_each Config.DEFAULT_CONFIG "c" "Command failed: boom"
                  [(noon, noon); (noon, noon); (noon, noon)])
               (run (Retry_from_dlq "c" noon) sample_world))) = Some j'
    /\ state j' = "dead" /\ attempts j' = 3
    /\ error_message j' = Some "Command failed: boom" /\ lock_id j' = None.
Proof.
  destruct (failures_until_dead Config.DEFAULT_CONFIG "c"
              "Command failed: boom" [(noon, noon); (noon, noon); (noon, noon)]
              (run (Retry_from_dlq "c" noon) sample_world) _
              retried_from_dlq_jobs)
    as [j' [G [S [A [_ [E L]]]]]].
  - simpl. lia.
  - reflexivity.
  - simpl. repeat split; intros _; vm_compute; discriminate.
  - exists j'. split; [exact G|]. split; [exact S|]. split; [exact A|].
    split; [exact E | exact L].
Defined.

(* ================================================================== *)
(** ** One pass of the worker's loop *)
(* ================================================================== *)

Lemma no_ready_jobs (limit : Z) (now : datetime) (t : table) :
  (forall j, In j t -> is_ready (get_timestamp now) j = false) ->
  get_ready_jobs limit now t = [].
Proof.
  intros H. unfold get_ready_jobs.
  assert (E : filter (is_ready (get_timestamp now)) t = []).
  { induction t as [|r t IH]; simpl; [reflexivity|].
    rewrite (H r (or_introl eq_refl)). apply IH.
    intros j Hj. apply H. right. exact Hj. }
  rewrite E. unfold sql_limit.
  destruct (limit <? 0)%Z; [reflexivity|].
  destruct (Z.to_nat limit); reflexivity.
Qed.

(** X14.  When no job is pending with its [scheduled_at] absent or at
    most the time of the poll, a pass of the worker's loop touches
    neither the store nor the worker's current job: it logs that it
    found nothing, and sleeps. *)
Theorem worker_idle (self : Worker.t) (executed : bool * string)
    (k : Worker.ticks) (w : world) :
  (forall j, In j (jobs w) ->
     state j = "pending" ->
     exists s, scheduled_at j = Some s
               /\ String.ltb (get_timestamp (Worker.at_poll k)) s = true) ->
  Worker.iteration self executed k w
  = (Worker.Idle,
     Worker.worker_logger self INFO (Worker.Found_ready_jobs 0), w).
Proof.
  intros H. unfold Worker.iteration.
  rewrite no_ready_jobs; [reflexivity|].
  intros j Hj. rewrite is_ready_per_spec. unfold ready_per_spec.
  destruct (String.eqb (state j) "pending") eqn:E; [|reflexivity].
  apply String.eqb_eq in E. destruct (H j Hj E) as [s [Hs Hl]].
  rewrite Hs, Hl. reflexivity.
Qed.

Lemma worker_idle_witness :
  Worker.iteration worker_0 (true, "Output logged")
    a_pass {| jobs := [job_b; job_c; job_h]; log := [] |}
  = (Worker.Idle,
     Worker.worker_logger worker_0 INFO (Worker.Found_ready_jobs 0),
     {| jobs := [job_b; job_c; job_h]; log := [] |}).
Proof.
  apply worker_idle. simpl.
  intros j [<-|[<-|[<-|[]]]] E; try discriminate E.
  eexists. split; reflexivity.
Defined.











(* ================================================================== *)
(** ** The backoff *)
(* ================================================================== *)




Lemma first_failure_of_b :
  mark_failed Config.DEFAULT_CONFIG "b" "Command failed: boom" noon noon
    sample_world
  = (Ok tt,
     snd (mark_failed Config.DEFAULT_CONFIG "b" "Command failed: boom" noon
            noon sample_world)).
Proof. vm_compute. reflexivity. Qed.


(* ================================================================== *)
(** ** Timestamps compare as the times they stand for *)
(* ================================================================== *)

Local Close Scope string_scope.

Lemma string_compare_refl (s : string) : String.compare s s = Eq.
Proof.
  induction s as [|c s IH]; simpl; [reflexivity|].
  unfold Ascii.compare. rewrite N.compare_refl. exact IH.
Qed.

Lemma string_compare_app (a1 a2 b1 b2 : string) :
  String.length a1 = String.length a2 ->
  String.compare (a1 ++ b1) (a2 ++ b2)
  = match String.compare a1 a2 with
    | Eq => String.compare b1 b2
    | c => c
    end.
Proof.
  revert a2. induction a1 as [|x a1 IH]; intros [|y a2] H; simpl in *;
    try discriminate; [reflexivity|].
  destruct (Ascii.compare x y); try reflexivity.
  apply IH. congruence.
Qed.

Lemma string_length_app (a b : string) :
  String.length (a ++ b) = (String.length a + String.length b)%nat.
Proof. induction a as [|c a IH]; simpl; [reflexivity | rewrite IH; reflexivity]. Qed.

Lemma zero_padded_length (w : nat) (n : Z) :
  String.length (zero_padded w n) = w.
Proof.
  revert n. induction w as [|w IH]; intros n; simpl; [reflexivity|].
  rewrite string_length_app, IH. simpl. lia.
Qed.

Lemma digit_compare (a b : Z) :
  Ascii.compare (digit a) (digit b) = Z.compare (a mod 10) (b mod 10).
Proof.
  pose proof (Z.mod_pos_bound a 10). pose proof (Z.mod_pos_bound b 10).
  unfold Ascii.compare, digit. rewrite !N_ascii_embedding by lia.
  rewrite <- N2Z.inj_compare, !N2Z.inj_add, !Z2N.id by lia.
  apply Z.add_compare_mono_l.
Qed.

Lemma zero_padded_compare (w : nat) (a b : Z) :
  0 <= a < 10 ^ Z.of_nat w -> 0 <= b < 10 ^ Z.of_nat w ->
  String.compare (zero_padded w a) (zero_padded w b) = Z.compare a b.
Proof.
  revert a b. induction w as [|w IH]; intros a b Ha Hb.
  - simpl in *. assert (a = 0) by lia. assert (b = 0) by lia. subst.
    reflexivity.
  - cbn [zero_padded].
    rewrite string_compare_app by (rewrite !zero_padded_length; reflexivity).
    rewrite Nat2Z.inj_succ, Z.pow_succ_r in Ha, Hb by lia.
    rewrite IH by (split; [apply Z.div_pos; lia
                          | apply Z.div_lt_upper_bound; lia]).
    simpl String.compare.
    pose proof (digit_compare a b) as Da.
    rewrite Da.
    destruct (Z.compare_spec (a / 10) (b / 10)) as [E|L|G].
    + destruct (Z.compare_spec (a mod 10) (b mod 10)) as [E'|L'|G'].
      * symmetry. apply Z.compare_eq_iff.
        rewrite (Z.div_mod a 10), (Z.div_mod b 10) by lia. lia.
      * symmetry. apply Z.compare_lt_iff.
        rewrite (Z.div_mod a 10), (Z.div_mod b 10) by lia. lia.
      * symmetry. apply Z.compare_gt_iff.
        rewrite (Z.div_mod a 10), (Z.div_mod b 10) by lia. lia.
    + symmetry. apply Z.compare_lt_iff.
      pose proof (Z.mod_pos_bound a 10). pose proof (Z.mod_pos_bound b 10).
      rewrite (Z.div_mod a 10), (Z.div_mod b 10) by lia. lia.
    + symmetry. apply Z.compare_gt_iff.
      pose proof (Z.mod_pos_bound a 10). pose proof (Z.mod_pos_bound b 10).
      rewrite (Z.div_mod a 10), (Z.div_mod b 10) by lia. lia.
Qed.

Lemma is_leap_digits (n400 n100 n4 n1 : Z) :
  0 <= n400 -> 0 <= n100 <= 3 -> 0 <= n4 <= 24 -> 0 <= n1 <= 3 ->
  is_leap (n400 * 400 + 1 + n100 * 100 + n4 * 4 + n1)
  = (n1 =? 3) && (negb (n4 =? 24) || (n100 =? 3)).
Proof.
  intros H400 H100 H4 H1. unfold is_leap.
  set (y := n400 * 400 + 1 + n100 * 100 + n4 * 4 + n1).
  assert (E4 : y mod 4 = (n1 + 1) mod 4).
  { unfold y. replace (n400 * 400 + 1 + n100 * 100 + n4 * 4 + n1)
      with ((n1 + 1) + (n400 * 100 + n100 * 25 + n4) * 4) by lia.
    apply Z.mod_add. lia. }
  assert (E100 : y mod 100 = (n4 * 4 + n1 + 1) mod 100).
  { unfold y. replace (n400 * 400 + 1 + n100 * 100 + n4 * 4 + n1)
      with ((n4 * 4 + n1 + 1) + (n400 * 4 + n100) * 100) by lia.
    apply Z.mod_add. lia. }
  assert (E400 : y mod 400 = (n100 * 100 + n4 * 4 + n1 + 1) mod 400).
  { unfold y. replace (n400 * 400 + 1 + n100 * 100 + n4 * 4 + n1)
      with ((n100 * 100 + n4 * 4 + n1 + 1) + n400 * 400) by lia.
    apply Z.mod_add. lia. }
  assert (I4 : y mod 4 = 0 <-> n1 = 3).
  { rewrite E4. split; intros H.
    - destruct (Z.eq_dec n1 3); [assumption|].
      rewrite Z.mod_small in H by lia. lia.
    - subst n1. reflexivity. }
  assert (I100 : y mod 100 = 0 <-> n4 = 24 /\ n1 = 3).
  { rewrite E100. split; intros H.
    - destruct (Z.eq_dec (n4 * 4 + n1 + 1) 100); [lia|].
      rewrite Z.mod_small in H by lia. lia.
    - destruct H; subst. reflexivity. }
  assert (I400 : y mod 400 = 0 <-> n100 = 3 /\ n4 = 24 /\ n1 = 3).
  { rewrite E400. split; intros H.
    - destruct (Z.eq_dec (n100 * 100 + n4 * 4 + n1 + 1) 400); [lia|].
      rewrite Z.mod_small in H by lia. lia.
    - destruct H as [? [? ?]]; subst. reflexivity. }
  clearbody y. clear E4 E100 E400.
  destruct (Z.eqb_spec (y mod 4) 0), (Z.eqb_spec (y mod 100) 0),
    (Z.eqb_spec (y mod 400) 0), (Z.eqb_spec n1 3), (Z.eqb_spec n4 24),
    (Z.eqb_spec n100 3); simpl; try reflexivity; exfalso; intuition lia.
Qed.

Lemma days_before_year_digits (n400 n100 n4 n1 : Z) :
  0 <= n400 -> 0 <= n100 <= 3 -> 0 <= n4 <= 24 -> 0 <= n1 <= 3 ->
  days_before_year (n400 * 400 + 1 + n100 * 100 + n4 * 4 + n1)
  = 146097 * n400 + 36524 * n100 + 1461 * n4 + 365 * n1.
Proof.
  intros H400 H100 H4 H1. unfold days_before_year.
  replace (n400 * 400 + 1 + n100 * 100 + n4 * 4 + n1 - 1)
    with (n400 * 400 + n100 * 100 + n4 * 4 + n1) by lia.
  cbv zeta.
  assert (D4 : (n400 * 400 + n100 * 100 + n4 * 4 + n1) / 4
               = n400 * 100 + n100 * 25 + n4).
  { symmetry. apply (Z.div_unique _ 4 _ n1); lia. }
  assert (D100 : (n400 * 400 + n100 * 100 + n4 * 4 + n1) / 100
                 = n400 * 4 + n100).
  { symmetry. apply (Z.div_unique _ 100 _ (n4 * 4 + n1)); lia. }
  assert (D400 : (n400 * 400 + n100 * 100 + n4 * 4 + n1) / 400 = n400).
  { symmetry. apply (Z.div_unique _ 400 _ (n100 * 100 + n4 * 4 + n1)); lia. }
  rewrite D4, D100, D400. lia.
Qed.

Lemma ord2ymd_spec (n0 : Z) :
  0 <= n0 ->
  exists y,
    1 <= y
    /\ 0 <= n0 - days_before_year y < days_in_year y
    /\ ord2ymd (n0 + 1)
       = (y, fst (month_day (n0 - days_before_year y) (is_leap y)),
             snd (month_day (n0 - days_before_year y) (is_leap y))).
Proof.
  intros H0. unfold ord2ymd.
  replace (n0 + 1 - 1) with n0 by lia. cbv zeta.
  pose proof (Z.div_mod n0 146097 ltac:(lia)) as E400.
  pose proof (Z.mod_pos_bound n0 146097 ltac:(lia)) as B400.
  set (n400 := n0 / 146097) in *. set (r400 := n0 mod 146097) in *.
  pose proof (Z.div_mod r400 36524 ltac:(lia)) as E100.
  pose proof (Z.mod_pos_bound r400 36524 ltac:(lia)) as B100.
  set (n100 := r400 / 36524) in *. set (r100 := r400 mod 36524) in *.
  pose proof (Z.div_mod r100 1461 ltac:(lia)) as E4.
  pose proof (Z.mod_pos_bound r100 1461 ltac:(lia)) as B4.
  set (n4 := r100 / 1461) in *. set (r4 := r100 mod 1461) in *.
  pose proof (Z.div_mod r4 365 ltac:(lia)) as E1.
  pose proof (Z.mod_pos_bound r4 365 ltac:(lia)) as B1.
  set (n1 := r4 / 365) in *. set (r1 := r4 mod 365) in *.
  assert (P400 : 0 <= n400) by (apply Z.div_pos; lia).
  assert (P100 : 0 <= n100) by (apply Z.div_pos; lia).
  assert (P4 : 0 <= n4) by (apply Z.div_pos; lia).
  assert (P1 : 0 <= n1) by (apply Z.div_pos; lia).
  destruct ((n1 =? 4) || (n100 =? 4)) eqn:Special.
  - (* the last day of a leap year *)
    exists (n400 * 400 + 1 + n100 * 100 + n4 * 4 + n1 - 1).
    apply orb_true_iff in Special.
    assert (L : is_leap (n400 * 400 + 1 + n100 * 100 + n4 * 4 + n1 - 1) = true
            /\ n0 - days_before_year
                      (n400 * 400 + 1 + n100 * 100 + n4 * 4 + n1 - 1) = 365).
    { destruct Special as [S|S]; apply Z.eqb_eq in S.
      - assert (n100 <= 3) by lia. assert (n4 <= 23) by lia.
        replace (n400 * 400 + 1 + n100 * 100 + n4 * 4 + n1 - 1)
          with (n400 * 400 + 1 + n100 * 100 + n4 * 4 + 3) by lia.
        rewrite is_leap_digits, days_before_year_digits by lia.
        split.
        + destruct (Z.eqb_spec n4 24); [lia|]. reflexivity.
        + lia.
      - assert (n4 = 0) by lia. assert (n1 = 0) by lia.
        replace (n400 * 400 + 1 + n100 * 100 + n4 * 4 + n1 - 1)
          with (n400 * 400 + 1 + 3 * 100 + 24 * 4 + 3) by lia.
        rewrite is_leap_digits, days_before_year_digits by lia.
        split; [reflexivity | lia]. }
    destruct L as [L D]. unfold days_in_year. rewrite L, D.
    split; [lia|]. split; [lia|]. reflexivity.
  - apply orb_false_iff in Special. destruct Special as [S1 S100].
    apply Z.eqb_neq in S1, S100.
    assert (n100 <= 3) by lia. assert (n4 <= 24) by lia.
    assert (n1 <= 3) by lia.
    exists (n400 * 400 + 1 + n100 * 100 + n4 * 4 + n1).
    pose proof (is_leap_digits n400 n100 n4 n1 ltac:(lia) ltac:(lia)
                  ltac:(lia) ltac:(lia)) as L.
    pose proof (days_before_year_digits n400 n100 n4 n1 ltac:(lia) ltac:(lia)
                  ltac:(lia) ltac:(lia)) as D.
    assert (R : n0 - days_before_year
                       (n400 * 400 + 1 + n100 * 100 + n4 * 4 + n1) = r1)
      by lia.
    rewrite R. unfold days_in_year. rewrite L.
    split; [lia|]. split.
    + destruct ((n1 =? 3) && (negb (n4 =? 24) || (n100 =? 3))); lia.
    + unfold month_day. cbv zeta.
      destruct (r1 <? _); reflexivity.
Qed.

Lemma md_table :
  forallb (md_ok false) (seq 0 365) = true
  /\ forallb (md_ok true) (seq 0 366) = true.
Proof. split; vm_compute; reflexivity. Qed.

Lemma md_step (leapyear : bool) (n : Z) :
  0 <= n < (if leapyear then 366 else 365) ->
  1 <= fst (month_day n leapyear) <= 12
  /\ 1 <= snd (month_day n leapyear) <= 31
  /\ md_code n leapyear < md_code (n + 1) leapyear.
Proof.
  intros H. destruct md_table as [T0 T1].
  assert (K : md_ok leapyear (Z.to_nat n) = true).
  { destruct leapyear.
    - apply (proj1 (forallb_forall _ _) T1). apply in_seq. lia.
    - apply (proj1 (forallb_forall _ _) T0). apply in_seq. lia. }
  unfold md_ok in K. rewrite Z2Nat.id in K by lia.
  destruct (month_day n leapyear) as [m d] eqn:E.
  unfold md_code at 1 in K. rewrite E in K. simpl fst in *. simpl snd in *.
  repeat (apply andb_true_iff in K; destruct K as [K ?]).
  unfold md_code at 1. rewrite E. simpl.
  lia.
Qed.

Lemma md_mono (leapyear : bool) (n n' : Z) :
  0 <= n -> n < n' -> n' < (if leapyear then 366 else 365) ->
  md_code n leapyear < md_code n' leapyear.
Proof.
  intros H0 Hlt Hb.
  assert (G : forall k : nat,
    n + 1 + Z.of_nat k < (if leapyear then 366 else 365) ->
    md_code n leapyear < md_code (n + 1 + Z.of_nat k) leapyear).
  { induction k as [|k IH]; intros Hk.
    - replace (n + 1 + Z.of_nat 0) with (n + 1) by lia.
      apply md_step. lia.
    - replace (n + 1 + Z.of_nat (S k)) with (n + 1 + Z.of_nat k + 1) by lia.
      apply Z.lt_trans with (md_code (n + 1 + Z.of_nat k) leapyear).
      + apply IH. lia.
      + apply md_step. lia. }
  replace n' with (n + 1 + Z.of_nat (Z.to_nat (n' - n - 1))) by lia.
  apply G. lia.
Qed.

Lemma days_before_year_succ (y : Z) :
  1 <= y -> days_before_year (y + 1) = days_before_year y + days_in_year y.
Proof.
  intros Hy. unfold days_before_year, days_in_year, is_leap. cbv zeta.
  replace (y + 1 - 1) with y by lia.
  destruct (Z.eqb_spec (y mod 4) 0), (Z.eqb_spec (y mod 100) 0),
    (Z.eqb_spec (y mod 400) 0); simpl;
    Z.div_mod_to_equations; lia.
Qed.

Lemma days_in_year_pos (y : Z) : 365 <= days_in_year y <= 366.
Proof. unfold days_in_year. destruct (is_leap y); lia. Qed.

Lemma days_before_year_mono (y y' : Z) :
  1 <= y -> y < y' ->
  days_before_year y + days_in_year y <= days_before_year y'.
Proof.
  intros Hy Hlt.
  assert (G : forall k : nat,
    days_before_year y + days_in_year y
    <= days_before_year (y + 1 + Z.of_nat k)).
  { induction k as [|k IH].
    - replace (y + 1 + Z.of_nat 0) with (y + 1) by lia.
      rewrite days_before_year_succ by lia. lia.
    - replace (y + 1 + Z.of_nat (S k)) with (y + 1 + Z.of_nat k + 1) by lia.
      rewrite days_before_year_succ by lia.
      pose proof (days_in_year_pos (y + 1 + Z.of_nat k)). lia. }
  replace y' with (y + 1 + Z.of_nat (Z.to_nat (y' - y - 1))) by lia.
  apply G.
Qed.

Lemma date_fields (day : Z) :
  0 <= day < MAXORDINAL ->
  exists y m d,
    ord2ymd (day + 1) = (y, m, d)
    /\ 1 <= y <= 9999 /\ 1 <= m <= 12 /\ 1 <= d <= 31
    /\ 0 <= day - days_before_year y < days_in_year y
    /\ m * 100 + d = md_code (day - days_before_year y) (is_leap y).
Proof.
  intros [H0 Hmax]. destruct (ord2ymd_spec day H0) as [y [Hy [Hd E]]].
  pose proof (md_step (is_leap y) (day - days_before_year y)) as S.
  unfold days_in_year in Hd. specialize (S Hd). destruct S as [Sm [Sd _]].
  do 3 eexists. split; [exact E|].
  split; [|split; [exact Sm|split; [exact Sd|split; [exact Hd|reflexivity]]]].
  split; [exact Hy|].
  destruct (Z_le_gt_dec y 9999) as [L|G]; [exact L|]. exfalso.
  assert (days_before_year 10000 <= days_before_year y).
  { destruct (Z.eq_dec y 10000) as [->|N]; [lia|].
    pose proof (days_before_year_mono 10000 y ltac:(lia) ltac:(lia)).
    pose proof (days_in_year_pos 10000). lia. }
  change (days_before_year 10000) with 3652059 in *.
  unfold MAXORDINAL in Hmax. lia.
Qed.

Lemma date_code_mono (day day' : Z) :
  0 <= day -> day < day' -> day' < MAXORDINAL ->
  date_code day < date_code day'.
Proof.
  intros H0 Hlt Hmax.
  destruct (date_fields day ltac:(lia))
    as [y [m [d [E [Hy [Hm [Hd [Hr Hc]]]]]]]].
  destruct (date_fields day' ltac:(lia))
    as [y' [m' [d' [E' [Hy' [Hm' [Hd' [Hr' Hc']]]]]]]].
  unfold date_code. rewrite E, E'.
  assert (Cmp : y < y' \/ (y = y' /\ m * 100 + d < m' * 100 + d')).
  { destruct (Z.lt_trichotomy y y') as [L|[Eq|G]].
    - left. exact L.
    - right. split; [exact Eq|]. subst y'. rewrite Hc, Hc'.
      apply md_mono; unfold days_in_year in *; lia.
    - exfalso.
      pose proof (days_before_year_mono y' y ltac:(lia) G). lia. }
  destruct Cmp as [L|[-> L]]; lia.
Qed.

Lemma time_fields (rest : Z) :
  0 <= rest < US_PER_DAY ->
  let hour := rest / (3600 * US_PER_SECOND) in
  let minute := (rest / (60 * US_PER_SECOND)) mod 60 in
  let second := (rest / US_PER_SECOND) mod 60 in
  let microsecond := rest mod US_PER_SECOND in
  0 <= hour < 24 /\ 0 <= minute < 60 /\ 0 <= second < 60
  /\ 0 <= microsecond < 1000000
  /\ rest = ((hour * 60 + minute) * 60 + second) * 1000000 + microsecond.
Proof.
  unfold US_PER_DAY, US_PER_SECOND. intros H. cbv zeta.
  Z.div_mod_to_equations. lia.
Qed.

Lemma time_code_mono (rest rest' : Z) :
  0 <= rest -> rest < rest' -> rest' < US_PER_DAY ->
  time_code rest < time_code rest'.
Proof.
  intros H0 Hlt Hmax.
  pose proof (time_fields rest ltac:(lia)) as F.
  pose proof (time_fields rest' ltac:(lia)) as F'.
  unfold time_code. cbv zeta in *.
  set (h := rest / (3600 * US_PER_SECOND)) in *.
  set (mi := (rest / (60 * US_PER_SECOND)) mod 60) in *.
  set (s := (rest / US_PER_SECOND) mod 60) in *.
  set (us := rest mod US_PER_SECOND) in *.
  set (h' := rest' / (3600 * US_PER_SECOND)) in *.
  set (mi' := (rest' / (60 * US_PER_SECOND)) mod 60) in *.
  set (s' := (rest' / US_PER_SECOND) mod 60) in *.
  set (us' := rest' mod US_PER_SECOND) in *.
  clearbody h mi s us h' mi' s' us'. lia.
Qed.

Lemma time_code_bound (rest : Z) :
  0 <= rest < US_PER_DAY -> 0 <= time_code rest < 1000000000000.
Proof.
  intros H. pose proof (time_fields rest H) as F.
  unfold time_code. cbv zeta in *. lia.
Qed.

Lemma timestamp_code_mono (a b : datetime) :
  0 <= a -> a < b -> b <= datetime_max ->
  timestamp_code a < timestamp_code b.
Proof.
  intros H0 Hlt Hmax. unfold timestamp_code.
  assert (Ha : 0 <= a mod US_PER_DAY < US_PER_DAY)
    by (apply Z.mod_pos_bound; reflexivity).
  assert (Hb : 0 <= b mod US_PER_DAY < US_PER_DAY)
    by (apply Z.mod_pos_bound; reflexivity).
  pose proof (time_code_bound _ Ha). pose proof (time_code_bound _ Hb).
  assert (Da : 0 <= a / US_PER_DAY) by (apply Z.div_pos; [lia|reflexivity]).
  assert (Db : b / US_PER_DAY < MAXORDINAL).
  { apply Z.div_lt_upper_bound; [reflexivity|].
    unfold datetime_max in Hmax. lia. }
  assert (Dab : a / US_PER_DAY <= b / US_PER_DAY)
    by (apply Z.div_le_mono; [reflexivity | lia]).
  destruct (Z.eq_dec (a / US_PER_DAY) (b / US_PER_DAY)) as [E|N].
  - rewrite E.
    assert (a mod US_PER_DAY < b mod US_PER_DAY).
    { rewrite !Z.mod_eq by (unfold US_PER_DAY, US_PER_SECOND; lia).
      rewrite E. lia. }
    pose proof (time_code_mono (a mod US_PER_DAY) (b mod US_PER_DAY)
                  ltac:(lia) ltac:(lia) ltac:(lia)).
    lia.
  - pose proof (date_code_mono (a / US_PER_DAY) (b / US_PER_DAY)
                  ltac:(lia) ltac:(lia) ltac:(lia)).
    lia.
Qed.

Lemma compare_cascade (B x x' r r' : Z) :
  0 <= r < B -> 0 <= r' < B ->
  (x * B + r ?= x' * B + r')
  = match x ?= x' with
    | Eq => r ?= r'
    | c => c
    end.
Proof.
  intros Hr Hr'.
  destruct (Z.compare_spec x x') as [->|L|G].
  - apply Z.add_compare_mono_l.
  - apply Z.compare_lt_iff. nia.
  - apply Z.compare_gt_iff. nia.
Qed.

Lemma field_step (w : nat) (x x' : Z) (sep : ascii) (R R' : string) :
  0 <= x < 10 ^ Z.of_nat w -> 0 <= x' < 10 ^ Z.of_nat w ->
  String.compare (zero_padded w x ++ String sep R)
    (zero_padded w x' ++ String sep R')
  = match x ?= x' with
    | Eq => String.compare R R'
    | c => c
    end.
Proof.
  intros Hx Hx'.
  rewrite string_compare_app by (rewrite !zero_padded_length; reflexivity).
  rewrite zero_padded_compare by assumption.
  destruct (x ?= x'); try reflexivity.
  simpl. unfold Ascii.compare. rewrite N.compare_refl. reflexivity.
Qed.

Lemma fraction_compare (a b : Z) :
  0 <= a < 1000000 -> 0 <= b < 1000000 ->
  String.compare (fraction a) (fraction b) = (a ?= b).
Proof.
  intros Ha Hb. unfold fraction.
  destruct (Z.eqb_spec a 0) as [->|Na], (Z.eqb_spec b 0) as [->|Nb].
  - reflexivity.
  - cbn [append String.compare]. symmetry. apply Z.compare_lt_iff. lia.
  - cbn [append String.compare]. symmetry. apply Z.compare_gt_iff. lia.
  - cbn [append String.compare]. unfold Ascii.compare.
    rewrite N.compare_refl. apply zero_padded_compare; simpl; lia.
Qed.

Lemma last_field (x x' u u' : Z) :
  0 <= x < 100 -> 0 <= x' < 100 ->
  0 <= u < 1000000 -> 0 <= u' < 1000000 ->
  String.compare (zero_padded 2 x ++ fraction u)
    (zero_padded 2 x' ++ fraction u')
  = match x ?= x' with
    | Eq => u ?= u'
    | c => c
    end.
Proof.
  intros Hx Hx' Hu Hu'.
  rewrite string_compare_app by (rewrite !zero_padded_length; reflexivity).
  rewrite zero_padded_compare by (simpl; lia).
  rewrite fraction_compare by assumption. reflexivity.
Qed.

Lemma isoformat_compare (a b : datetime) :
  0 <= a <= datetime_max -> 0 <= b <= datetime_max ->
  String.compare (isoformat a) (isoformat b)
  = (timestamp_code a ?= timestamp_code b).
Proof.
  intros Ha Hb.
  assert (R : forall dt, 0 <= dt <= datetime_max ->
    0 <= dt / US_PER_DAY < MAXORDINAL
    /\ 0 <= dt mod US_PER_DAY < US_PER_DAY).
  { intros dt H. split; [split|].
    - apply Z.div_pos; [lia | reflexivity].
    - apply Z.div_lt_upper_bound; [reflexivity|].
      unfold datetime_max in H. lia.
    - apply Z.mod_pos_bound. reflexivity. }
  destruct (R a Ha) as [Da Ra]. destruct (R b Hb) as [Db Rb].
  destruct (date_fields _ Da) as [y [m [d [E [Hy [Hm [Hd _]]]]]]].
  destruct (date_fields _ Db) as [y' [m' [d' [E' [Hy' [Hm' [Hd' _]]]]]]].
  pose proof (time_fields _ Ra) as T. pose proof (time_fields _ Rb) as T'.
  unfold timestamp_code, date_code, time_code, isoformat.
  rewrite E, E'. cbv zeta in *.
  set (h := (a mod US_PER_DAY) / (3600 * US_PER_SECOND)) in *.
  set (mi := ((a mod US_PER_DAY) / (60 * US_PER_SECOND)) mod 60) in *.
  set (s := ((a mod US_PER_DAY) / US_PER_SECOND) mod 60) in *.
  set (us := (a mod US_PER_DAY) mod US_PER_SECOND) in *.
  set (h' := (b mod US_PER_DAY) / (3600 * US_PER_SECOND)) in *.
  set (mi' := ((b mod US_PER_DAY) / (60 * US_PER_SECOND)) mod 60) in *.
  set (s' := ((b mod US_PER_DAY) / US_PER_SECOND) mod 60) in *.
  set (us' := (b mod US_PER_DAY) mod US_PER_SECOND) in *.
  destruct T as [Th [Tm [Ts [Tu _]]]]. destruct T' as [Th' [Tm' [Ts' [Tu' _]]]].
  clearbody h mi s us h' mi' s' us'.
  fold (fraction us). fold (fraction us').
  cbn [append].
  rewrite !field_step by (simpl; lia).
  rewrite last_field by lia.
  (* the numbers *)
  rewrite (compare_cascade 1000000000000) by lia.
  rewrite (compare_cascade 100 (y * 100 + m) (y' * 100 + m')) by lia.
  rewrite (compare_cascade 100 y y') by lia.
  rewrite (compare_cascade 1000000) by lia.
  rewrite (compare_cascade 100 (h * 100 + mi) (h' * 100 + mi')) by lia.
  rewrite (compare_cascade 100 h h') by lia.
  destruct (y ?= y'), (m ?= m'), (d ?= d'), (h ?= h'), (mi ?= mi'), (s ?= s');
    reflexivity.
Qed.

Local Open Scope string_scope.

Lemma get_timestamp_compare (a b : datetime) :
  0 <= a <= datetime_max -> 0 <= b <= datetime_max ->
  String.compare (get_timestamp a) (get_timestamp b) = Z.compare a b.
Proof.
  intros Ha Hb. unfold get_timestamp. rewrite isoformat_compare by assumption.
  destruct (Z.compare_spec a b) as [->|L|G].
  - apply Z.compare_refl.
  - apply Z.compare_lt_iff. apply timestamp_code_mono; lia.
  - apply Z.compare_gt_iff. apply timestamp_code_mono; lia.
Qed.

Lemma get_timestamp_leb (a b : datetime) :
  0 <= a <= datetime_max -> 0 <= b <= datetime_max ->
  String.leb (get_timestamp a) (get_timestamp b) = true <-> a <= b.
Proof.
  intros Ha Hb. unfold String.leb.
  rewrite (get_timestamp_compare a b Ha Hb).
  destruct (Z.compare_spec a b); split; intros; try lia; try reflexivity;
    discriminate.
Qed.

(** X18.  For clock readings Python can represent (years 1 to 9999),
    the strings [get_timestamp] returns compare bytewise, as SQLite
    compares them, exactly as the times they stand for: earlier times
    give smaller strings and different times different strings, although
    [isoformat] leaves out the microseconds when they are zero. *)
Theorem timestamps_sort_by_time (a b : datetime) :
  0 <= a <= datetime_max ->
  0 <= b <= datetime_max ->
  String.compare (get_timestamp a) (get_timestamp b) = Z.compare a b
  /\ (String.leb (get_timestamp a) (get_timestamp b) = true <-> a <= b)
  /\ (String.ltb (get_timestamp a) (get_timestamp b) = true <-> a < b)
  /\ (get_timestamp a = get_timestamp b <-> a = b).
Proof.
  intros Ha Hb. pose proof (get_timestamp_compare a b Ha Hb) as C.
  split; [exact C|]. split; [apply get_timestamp_leb; assumption|]. split.
  - unfold String.ltb. rewrite C.
    destruct (Z.compare_spec a b); split; intros; try lia;
      try reflexivity; discriminate.
  - split; [|intros ->; reflexivity].
    intros E. rewrite E, string_compare_refl in C.
    symmetry in C. apply Z.compare_eq_iff in C. exact C.
Qed.

Lemma timestamps_sort_by_time_witness :
  String.ltb (get_timestamp noon) (get_timestamp (noon + 1)) = true
  <-> noon < noon + 1.
Proof.
  apply (timestamps_sort_by_time noon (noon + 1)); vm_compute;
    split; discriminate.
Defined.

(* ================================================================== *)
(** ** The order of [ready], and the gate on retries *)
(* ================================================================== *)

Lemma sorted_head_least (j : Job) (l : list Job) :
  StronglySorted (fun x y => is_true (CreatedAtOrder.leb x y)) (j :: l) ->
  forall r, In r (j :: l) ->
    String.leb (created_at j) (created_at r) = true.
Proof.
  intros H r [<-|Hr].
  - unfold String.leb. rewrite string_compare_refl. reflexivity.
  - inversion H as [|? ? _ Hall]; subst.
    exact (proj1 (Forall_forall _ _) Hall r Hr).
Qed.

(** X19.  The first job [ready] returns is an oldest one: no pending job
    whose [scheduled_at] is absent or at most now has a smaller
    [created_at]. *)
Theorem ready_returns_oldest (limit : Z) (now : datetime) (t : table)
    (j : Job) (rest : list Job) :
  get_ready_jobs limit now t = j :: rest ->
  forall r, In r t -> is_ready (get_timestamp now) r = true ->
    String.leb (created_at j) (created_at r) = true.
Proof.
  intros H r Hr Hrd. unfold get_ready_jobs in H.
  set (l := OrderBy.sort (filter (is_ready (get_timestamp now)) t)) in *.
  assert (Hs : StronglySorted (fun x y => is_true (CreatedAtOrder.leb x y)) l)
    by (apply OrderBy.StronglySorted_sort, created_at_order_transitive).
  assert (Hin : In r l).
  { apply (Permutation_in _ (OrderBy.Permuted_sort _)).
    apply filter_In. auto. }
  assert (Hl : exists rest', l = j :: rest').
  { unfold sql_limit in H. destruct (limit <? 0)%Z.
    - exists rest. exact H.
    - destruct (Z.to_nat limit); [discriminate H|].
      destruct l as [|x l']; [discriminate H|].
      simpl in H. injection H as -> _. exists l'. reflexivity. }
  destruct Hl as [rest' El]. rewrite El in Hs, Hin.
  exact (sorted_head_least j rest' Hs r Hin).
Qed.

Lemma ready_returns_oldest_witness :
  String.leb (created_at job_i) (created_at job_a) = true.
Proof.
  apply (ready_returns_oldest 1 noon queue job_i []).
  - vm_compute. reflexivity.
  - simpl. tauto.
  - vm_compute. reflexivity.
Defined.

Lemma utcnow_plus_range (utcnow : datetime) (delay : Q) (due : datetime) :
  utcnow_plus utcnow delay = Some due -> 0 <= due <= datetime_max.
Proof.
  unfold utcnow_plus, datetime_add.
  destruct (timedelta delay) as [td|]; [|discriminate].
  destruct (_ && _) eqn:E; [|discriminate].
  intros H. injection H as <-.
  apply andb_true_iff in E. destruct E as [A B].
  apply Z.leb_le in A, B. lia.
Qed.

Lemma ready_within_limit (limit : Z) (now : datetime) (t : table) (j : Job) :
  In j t -> is_ready (get_timestamp now) j = true ->
  Z.of_nat (List.length t) <= limit ->
  In j (get_ready_jobs limit now t).
Proof.
  intros Hin Hrd Hl. unfold get_ready_jobs, sql_limit.
  assert (Hs : In j (OrderBy.sort (filter (is_ready (get_timestamp now)) t))).
  { apply (Permutation_in _ (OrderBy.Permuted_sort _)).
    apply filter_In. auto. }
  destruct (limit <? 0)%Z; [exact Hs|].
  rewrite firstn_all2; [exact Hs|].
  rewrite sort_length.
  pose proof (filter_length_le (is_ready (get_timestamp now)) t). lia.
Qed.

(** X20.  A job that [mark_failed] sends back for another attempt, on a
    table with unique ids, is held back until its retry time: polled at
    a representable time before the retry time, [ready] does not return
    it, whatever the limit; polled at the retry time or later, [ready]
    returns it when the limit is at least the number of jobs. *)
Theorem retry_gate (config : Config.t) (w w' : world) (job_id err : string)
    (utcnow now : datetime) (j : Job) :
  primary_key (jobs w) ->
  get_job job_id (jobs w) = Some j ->
  attempts j + 1 < max_retries j ->
  mark_failed config job_id err utcnow now w = (Ok tt, w') ->
  exists due j',
    utcnow_plus utcnow
      (calculate_backoff_delay (attempts j + 1) (Config.backoff_base config))
    = Some due
    /\ get_job job_id (jobs w') = Some j'
    /\ state j' = "pending"
    /\ scheduled_at j' = Some (get_timestamp due)
    /\ forall poll, 0 <= poll <= datetime_max ->
         (poll < due ->
          forall limit r, In r (get_ready_jobs limit poll (jobs w')) ->
            id r <> job_id)
         /\ (due <= poll ->
             forall limit, Z.of_nat (List.length (jobs w')) <= limit ->
               In j' (get_ready_jobs limit poll (jobs w'))).
Proof.
  intros Hpk Hj Hn. unfold mark_failed, bind, storage_get_job.
  rewrite Hj. rewrite Z.geb_leb. apply Z.leb_gt in Hn. rewrite Hn.
  destruct (utcnow_plus utcnow _) as [due|] eqn:E; [|discriminate].
  simpl. intros H. injection H as <-. simpl jobs.
  pose proof (utcnow_plus_range _ _ _ E) as Hdue.
  pose proof (get_job_update_job job_id
                [Set_state "pending"; Set_attempts (attempts j + 1);
                 Set_error_message (Some err);
                 Set_scheduled_at (Some (isoformat due)); Set_lock_id None]
                now (jobs w) j Hj) as Hg.
  simpl fold_left in Hg.
  set (t' := update_job job_id _ now (jobs w)) in *.
  assert (Hpk' : primary_key t').
  { unfold primary_key, t', update_job. rewrite sql_update_ids. exact Hpk. }
  do 2 eexists. split; [reflexivity|]. split; [exact Hg|].
  split; [reflexivity|]. split; [reflexivity|].
  intros poll Hpoll. split.
  - intros Hlt limit r Hr Hid. apply get_ready_jobs_In in Hr.
    destruct Hr as [Hin Hrd].
    pose proof (get_job_some _ _ _ Hg) as [Hin' Hid'].
    assert (r = _) by (apply (primary_key_unique t' r _ Hpk' Hin Hin');
                       congruence).
    subst r. unfold is_ready in Hrd. simpl in Hrd.
    apply (get_timestamp_leb due poll Hdue Hpoll) in Hrd. lia.
  - intros Hle limit Hl.
    pose proof (get_job_some _ _ _ Hg) as [Hin' _].
    apply ready_within_limit; [exact Hin' | | exact Hl].
    unfold is_ready. simpl.
    apply (get_timestamp_leb due poll Hdue Hpoll). exact Hle.
Qed.

Lemma retry_gate_witness :
  exists due j',
    utcnow_plus noon
      (calculate_backoff_delay (attempts job_b + 1)
         (Config.backoff_base Config.DEFAULT_CONFIG)) = Some due
    /\ get_job "b"
         (jobs (snd (mark_failed Config.DEFAULT_CONFIG "b"
                       "Command failed: boom" noon noon sample_world)))
       = Some j'
    /\ state j' = "pending"
    /\ scheduled_at j' = Some (get_timestamp due).
Proof.
  destruct (retry_gate Config.DEFAULT_CONFIG sample_world
              (snd (mark_failed Config.DEFAULT_CONFIG "b"
                      "Command failed: boom" noon noon sample_world))
              "b" "Command failed: boom" noon noon job_b sample_primary_key
              eq_refl)
    as [due [j' [E [G [S [D _]]]]]].
  - simpl. lia.
  - exact first_failure_of_b.
  - exists due, j'. split; [exact E|]. split; [exact G|].
    split; [exact S | exact D].
Defined.

(* ================================================================== *)
(** ** The configuration file *)
(* ================================================================== *)

Lemma lookup_app (k : string) (l m : ConfigFile.dict) :
  ConfigFile.lookup k (l ++ m)%list
  = match ConfigFile.lookup k l with
    | Some x => Some x
    | None => ConfigFile.lookup k m
    end.
Proof.
  induction l as [|[k' x] l IH]; simpl; [reflexivity|].
  destruct (String.eqb k' k); [reflexivity | exact IH].
Qed.

Lemma lookup_set_item (key k : string) (v : ConfigFile.value)
    (d : ConfigFile.dict) :
  ConfigFile.lookup k (ConfigFile.set_item key v d)
  = if String.eqb key k then Some v else ConfigFile.lookup k d.
Proof.
  induction d as [|[k' x] d IH]; simpl.
  - reflexivity.
  - destruct (String.eqb k' key) eqn:E; simpl.
    + apply String.eqb_eq in E. subst k'.
      destruct (String.eqb key k); reflexivity.
    + rewrite IH. destruct (String.eqb k' k) eqn:E'; [|reflexivity].
      apply String.eqb_eq in E'. subst k'.
      rewrite String.eqb_sym, E. reflexivity.
Qed.

Lemma lookup_merge (k : string) (a b : ConfigFile.dict) :
  ConfigFile.lookup k (ConfigFile.merge a b)
  = match ConfigFile.lookup k (rev b) with
    | Some v => Some v
    | None => ConfigFile.lookup k a
    end.
Proof.
  unfold ConfigFile.merge. revert a.
  induction b as [|[k' v] b IH]; intros a; simpl.
  - reflexivity.
  - rewrite IH, lookup_set_item, lookup_app. simpl.
    destruct (ConfigFile.lookup k (rev b)); [reflexivity|].
    destruct (String.eqb k' k); reflexivity.
Qed.

Lemma lookup_keys (k : string) (d : ConfigFile.dict) :
  In k (map fst d) <-> ConfigFile.lookup k d <> None.
Proof.
  induction d as [|[k' x] d IH]; simpl.
  - split; [intros [] | intros H; exact (H eq_refl)].
  - destruct (String.eqb k' k) eqn:E.
    + apply String.eqb_eq in E. split; [discriminate | auto].
    + apply String.eqb_neq in E. rewrite <- IH. split; [|auto].
      intros [H|H]; [contradiction | exact H].
Qed.

Lemma set_item_keys (key : string) (v : ConfigFile.value)
    (d : ConfigFile.dict) :
  NoDup (map fst d) -> NoDup (map fst (ConfigFile.set_item key v d)).
Proof.
  induction d as [|[k' x] d IH]; simpl; intros N.
  - constructor; [intros [] | constructor].
  - inversion N as [|? ? Hn Nd]; subst.
    destruct (String.eqb k' key) eqn:E; simpl.
    + constructor; assumption.
    + constructor; [|exact (IH Nd)].
      rewrite lookup_keys, lookup_set_item.
      rewrite String.eqb_sym, E. rewrite <- lookup_keys. exact Hn.
Qed.

Lemma merge_keys (a b : ConfigFile.dict) :
  NoDup (map fst a) -> NoDup (map fst (ConfigFile.merge a b)).
Proof.
  unfold ConfigFile.merge. revert a.
  induction b as [|[k v] b IH]; intros a N; simpl; [exact N|].
  apply IH, set_item_keys, N.
Qed.

Lemma lookup_rev (k : string) (d : ConfigFile.dict) :
  NoDup (map fst d) ->
  ConfigFile.lookup k (rev d) = ConfigFile.lookup k d.
Proof.
  induction d as [|[k' x] d IH]; simpl; intros N; [reflexivity|].
  inversion N as [|? ? Hn Nd]; subst.
  rewrite lookup_app, (IH Nd). simpl.
  destruct (String.eqb k' k) eqn:E.
  - apply String.eqb_eq in E. subst k'.
    destruct (ConfigFile.lookup k d) eqn:L; [|reflexivity].
    exfalso. apply Hn, lookup_keys. rewrite L. discriminate.
  - destruct (ConfigFile.lookup k d); reflexivity.
Qed.

Lemma load_config_keys (f : ConfigFile.file) :
  NoDup (map fst (ConfigFile.load_config f)).
Proof.
  assert (D : NoDup (map fst ConfigFile.DEFAULT_CONFIG)).
  { repeat constructor; simpl; intuition discriminate. }
  destruct f as [| |v]; try exact D.
  destruct v; try exact D. apply merge_keys, D.
Qed.

Lemma load_config_defaults (f : ConfigFile.file) (k : string) :
  ConfigFile.lookup k ConfigFile.DEFAULT_CONFIG <> None ->
  ConfigFile.lookup k (ConfigFile.load_config f) <> None.
Proof.
  intros Hk. destruct f as [| |v]; try exact Hk.
  destruct v; try exact Hk.
  cbn [ConfigFile.load_config]. rewrite lookup_merge.
  destruct (ConfigFile.lookup k (rev members)); [discriminate | exact Hk].
Qed.

(** X21.  Whatever the configuration file holds, the loaded
    configuration has every key of the defaults.  When the file is
    missing, unreadable or not a JSON object the configuration is the
    defaults; when it is a JSON object, each of its keys has the value
    the file gives it (the last one, should the file repeat a key) and
    every other key its default.  After [set(key, v)], [get(key)] is
    [v], the other keys are what they were, and a configuration loaded
    from the file just written answers every [get] as the one in memory
    does. *)
Theorem config_load_and_set (f : ConfigFile.file) :
  (forall k, ConfigFile.lookup k ConfigFile.DEFAULT_CONFIG <> None ->
     ConfigFile.lookup k (ConfigFile.load_config f) <> None)
  /\ ((forall members, f <> ConfigFile.Json (ConfigFile.Object members)) ->
      ConfigFile.load_config f = ConfigFile.DEFAULT_CONFIG)
  /\ (forall members k default,
        f = ConfigFile.Json (ConfigFile.Object members) ->
        ConfigFile.get (ConfigFile.load_config f) k default
        = match ConfigFile.lookup k (rev members) with
          | Some v => v
          | None => ConfigFile.get ConfigFile.DEFAULT_CONFIG k default
          end)
  /\ (forall key v k default,
        let saved := ConfigFile.set (ConfigFile.load_config f) key v in
        ConfigFile.get (fst saved) k default
        = (if String.eqb key k then v
           else ConfigFile.get (ConfigFile.load_config f) k default)
        /\ ConfigFile.get (ConfigFile.load_config (snd saved)) k default
           = ConfigFile.get (fst saved) k default).
Proof.
  split; [|split; [|split]].
  - intros k. apply load_config_defaults.
  - intros H. destruct f as [| |v]; try reflexivity.
    destruct v; try reflexivity. exfalso. exact (H members eq_refl).
  - intros members k default ->. unfold ConfigFile.get.
    cbn [ConfigFile.load_config]. rewrite lookup_merge.
    destruct (ConfigFile.lookup k (rev members)); reflexivity.
  - intros key v k default saved. unfold saved, ConfigFile.set.
    cbn [fst snd]. split.
    + unfold ConfigFile.get. rewrite lookup_set_item.
      destruct (String.eqb key k); reflexivity.
    + unfold ConfigFile.get. cbn [ConfigFile.load_config].
      rewrite lookup_merge, lookup_rev
        by apply set_item_keys, load_config_keys.
      destruct (ConfigFile.lookup k
                  (ConfigFile.set_item key v (ConfigFile.load_config f)))
        as [x|] eqn:L; [reflexivity|].
      rewrite lookup_set_item in L.
      destruct (String.eqb key k); [discriminate|].
      destruct (ConfigFile.lookup k ConfigFile.DEFAULT_CONFIG) eqn:D;
        [|reflexivity].
      exfalso. apply (load_config_defaults f k); [|exact L].
      rewrite D. discriminate.
Qed.
